(** * remote-mcp-server-authless: the worker, its tools and the trust catalog

    A shallow embedding of the two source files of the repository:

    - the Cloudflare worker (calculator tools, the SSE rewrite helper
      [rewriteSseResponseToAbsolute] and the [fetch] router);
    - the stdio server of [src/index.ts] (the trust catalog cache
      [fetchTrustCatalog] and the tool [get-appsWithTrustFilter]).

    JavaScript numbers are IEEE 754 binary64 values, here [PrimFloat.float];
    strings compared and concatenated by the code are [string]; the text of
    a stream chunk is a list of Unicode code points, a chunk a list of bytes. *)

From Stdlib Require Import NArith Lia Bool Strings.Byte Ascii String Floats.
From stdpp Require Import base option list gmap.

Local Open Scope string_scope.

(** ** JavaScript preliminaries *)

Module Js.

(** What a call produces: a value, or a thrown exception (for an async
    function: a fulfilled or a rejected promise). *)
Inductive Exception : Type :=
| Error (message : string)
| TypeError (message : string)
| ReferenceError (message : string)
| SyntaxError (message : string).

Inductive Completion (A : Type) : Type :=
| Return (value : A)
| Throw (exn : Exception).
Arguments Return {A} value.
Arguments Throw {A} exn.

#[global] Instance completion_ret : MRet Completion := fun A a => Return a.
#[global] Instance completion_bind : MBind Completion := fun A B k c =>
  match c with
  | Return a => k a
  | Throw e => Throw e
  end.

(** [s || t] on strings: the empty string is falsy. *)
Definition or_string (s t : string) : string :=
  match s with
  | EmptyString => t
  | _ => s
  end.

(** [x === 0] on numbers is IEEE equality: it holds of both zeros and
    of no NaN. *)
Definition strict_eq_number (x y : float) : bool := PrimFloat.eqb x y.

End Js.

(** ** The calculator tools (worker) *)

Module Calculator.

Record ContentBlock : Type := { type : string; text : string }.
Record ToolResult : Type := { content : list ContentBlock }.

(** The arithmetic a handler run performs, in order. *)
Inductive Arith : Type :=
| Plus (a b : float)
| Minus (a b : float)
| Times (a b : float)
| Divide (a b : float).

Definition eval (op : Arith) : float :=
  match op with
  | Plus a b => (a + b)%float
  | Minus a b => (a - b)%float
  | Times a b => (a * b)%float
  | Divide a b => (a / b)%float
  end.

Section Handlers.
(** [String(x)] on a number; the platform's Number::toString. *)
Variable String_of_number : float -> string.

Definition text_result (s : string) : ToolResult :=
  {| content := [ {| type := "text"; text := s |} ] |}.

(** The [add] tool. *)
Definition add (a b : float) : list Arith * Js.Completion ToolResult :=
  ([Plus a b], Js.Return (text_result (String_of_number (eval (Plus a b))))).

(** The [calculate] tool: the switch on [operation], with the arithmetic
    each branch performs before it returns. *)
Definition calculate (operation : string) (a b : float)
  : list Arith * Js.Completion ToolResult :=
  let finish (op : Arith) :=
    ([op], Js.Return (text_result (String_of_number (eval op)))) in
  if String.eqb operation "add" then finish (Plus a b)
  else if String.eqb operation "subtract" then finish (Minus a b)
  else if String.eqb operation "multiply" then finish (Times a b)
  else if String.eqb operation "divide" then
    if Js.strict_eq_number b 0%float
    then ([], Js.Return (text_result "Error: Cannot divide by zero"))
    else finish (Divide a b)
  else ([], Js.Return (text_result "Unknown operation")).

End Handlers.

End Calculator.

(** ** The router (worker [fetch]) *)

Module Router.

(** The parts of [new URL(request.url)] and of the request the worker reads. *)
Record URL : Type := {
  protocol : string;   (* with its colon, as in "https:" *)
  host : string;
  pathname : string;
  search : string
}.

Record Request : Type := {
  method : string;
  url : URL;
  host_header : option string   (* request.headers.get("host") *)
}.

(** [s.replace(/\/+$/, "")]: the run of slashes that ends the string is
    removed; a string without one is unchanged. *)
Fixpoint strip_trailing_slashes (s : string) : string :=
  match s with
  | EmptyString => EmptyString
  | String c rest =>
      let rest' := strip_trailing_slashes rest in
      if Ascii.eqb c "/" && String.eqb rest' "" then EmptyString
      else String c rest'
  end.

Definition normalize_path (u : URL) : string :=
  let rawPath := Js.or_string (pathname u) "/" in
  Js.or_string (strip_trailing_slashes rawPath) "/".

(** Where [fetch] sends a request. *)
Inductive Route : Type :=
| StreamOpen      (* MyMCP.serveSSE("/sse").fetch, then rewriteSseResponseToAbsolute *)
| MessagePost     (* MyMCP.serve("/sse/message").fetch *)
| RootText        (* the plain-text description, status 200 *)
| NotFound.       (* "Not found", status 404 *)

Definition route (request : Request) : Route :=
  let path := normalize_path (url request) in
  if String.eqb path "/sse" || String.eqb path "/mcp" then StreamOpen
  else if String.eqb path "/sse/message" || String.eqb path "/mcp/message"
          || String.eqb path "/mcp" then MessagePost
  else if String.eqb path "/" || String.eqb path "" then RootText
  else NotFound.

Definition mcp_request (m : string) : Request :=
  {| method := m;
     url := {| protocol := "https:"; host := "example.com";
               pathname := "/mcp"; search := "?sessionId=abc" |};
     host_header := Some "example.com" |}.

Definition sse_request : Request :=
  {| method := "GET";
     url := {| protocol := "https:"; host := "example.com";
               pathname := "/sse"; search := "" |};
     host_header := Some "example.com" |}.

End Router.

(** ** Text and bytes

    A chunk read from the response body is a [Uint8Array], here a list of
    bytes. The text [TextDecoder] makes of it is a list of Unicode code
    points. The worker's regular expression has no [u] flag and so works on
    UTF-16 code units; its literals are ASCII, its [\s] class lies in the
    basic plane and its negated class accepts both halves of a surrogate
    pair, so matching code point by code point finds the same matches. *)

Module Text.
Local Open Scope N_scope.

Definition codepoint : Type := N.
Definition text : Type := list codepoint.

(** A string of the program as text: one code point per character. *)
Definition str (s : string) : text := map N_of_ascii (list_ascii_of_string s).

(** A non-empty string is truthy. *)
Definition truthy (t : text) : bool :=
  match t with
  | [] => false
  | _ :: _ => true
  end.

Fixpoint startsWith (t prefix : text) : bool :=
  match prefix, t with
  | [], _ => true
  | p :: prefix', c :: t' => N.eqb c p && startsWith t' prefix'
  | _ :: _, [] => false
  end.

Definition REPLACEMENT : codepoint := 0xFFFD.
Definition BOM : codepoint := 0xFEFF.

(** Unicode scalar values: code points that are not surrogates. *)
Definition scalar (c : codepoint) : Prop :=
  c < 0xD800 \/ (0xE000 <= c /\ c <= 0x10FFFF).

Definition byte_of_N (n : N) : Byte.byte :=
  match Byte.of_N n with
  | Some b => b
  | None => Byte.x00
  end.

(** The sequence a lead byte [n] opens, read by the decoder in its initial
    state: the code point bits it carries, the number of continuation
    bytes it needs and the bounds on the next byte. *)
Inductive Lead : Type :=
| Ascii
| Opens (bits needed lower upper : N)
| Invalid.

Definition lead (n : N) : Lead :=
  if n <=? 0x7F then Ascii
  else if (0xC2 <=? n) && (n <=? 0xDF) then Opens (n - 0xC0) 1 0x80 0xBF
  else if (0xE0 <=? n) && (n <=? 0xEF) then
    Opens (n - 0xE0) 2 (if n =? 0xE0 then 0xA0 else 0x80)
                       (if n =? 0xED then 0x9F else 0xBF)
  else if (0xF0 <=? n) && (n <=? 0xF4) then
    Opens (n - 0xF0) 3 (if n =? 0xF0 then 0x90 else 0x80)
                       (if n =? 0xF4 then 0x8F else 0xBF)
  else Invalid.

(** The UTF-8 decoder of [TextDecoder] in replacement mode. [needed = 0]
    is its initial state. A byte outside the bounds ends the open sequence
    with U+FFFD and is read again in the initial state; input that ends
    inside a sequence gives one more U+FFFD. *)
Fixpoint utf8_decode_from (bytes : list Byte.byte) (cp seen needed lower upper : N) : text :=
  match bytes with
  | [] => if needed =? 0 then [] else [REPLACEMENT]
  | b :: rest =>
      let n := Byte.to_N b in
      let initial :=
        match lead n with
        | Ascii => n :: utf8_decode_from rest 0 0 0 0x80 0xBF
        | Opens bits k lo hi => utf8_decode_from rest bits 0 k lo hi
        | Invalid => REPLACEMENT :: utf8_decode_from rest 0 0 0 0x80 0xBF
        end in
      if needed =? 0 then initial
      else if (n <? lower) || (upper <? n) then REPLACEMENT :: initial
      else
        let cp' := cp * 64 + (n - 0x80) in
        if seen + 1 =? needed then cp' :: utf8_decode_from rest 0 0 0 0x80 0xBF
        else utf8_decode_from rest cp' (seen + 1) needed 0x80 0xBF
  end.

Definition utf8_decode (bytes : list Byte.byte) : text :=
  utf8_decode_from bytes 0 0 0 0x80 0xBF.

(** [new TextDecoder().decode(value)]: UTF-8, not fatal, and a byte order
    mark at the very start is dropped. *)
Definition decode (value : list Byte.byte) : text :=
  match utf8_decode value with
  | c :: t => if c =? BOM then t else c :: t
  | [] => []
  end.

Definition utf8_encode_codepoint (c : codepoint) : list Byte.byte :=
  if c <=? 0x7F then [byte_of_N c]
  else if c <=? 0x7FF then
    [byte_of_N (0xC0 + c / 64); byte_of_N (0x80 + c mod 64)]
  else if c <=? 0xFFFF then
    [byte_of_N (0xE0 + c / 4096); byte_of_N (0x80 + (c / 64) mod 64);
     byte_of_N (0x80 + c mod 64)]
  else
    [byte_of_N (0xF0 + c / 262144); byte_of_N (0x80 + (c / 4096) mod 64);
     byte_of_N (0x80 + (c / 64) mod 64); byte_of_N (0x80 + c mod 64)].

Definition is_scalar (c : codepoint) : bool :=
  (c <? 0xD800) || ((0xE000 <=? c) && (c <=? 0x10FFFF)).

(** [new TextEncoder().encode(s)]: UTF-8; what is not a scalar value (a
    lone surrogate in the string) is encoded as U+FFFD. *)
Definition encode (t : text) : list Byte.byte :=
  flat_map (fun c => utf8_encode_codepoint (if is_scalar c then c else REPLACEMENT)) t.

(** Text that [decode] gives back from its encoding: scalar values, not
    led by a byte order mark. *)
Definition plain (t : text) : Prop :=
  Forall scalar t /\ (forall t', t <> BOM :: t').

End Text.

(** ** The regular expression of the rewrite

    A backtracking matcher for the fragment the worker's pattern uses:
    literals, character classes, the greedy star of a class, sequence and
    one capture group. *)

Module Regex.
Import Text.
Local Open Scope N_scope.
Local Open Scope list_scope.

Inductive regex : Type :=
| Lit (c : codepoint)
| Class (p : codepoint -> bool)
| Star (p : codepoint -> bool)
| Seq (r1 r2 : regex)
| Group (r : regex).

(** [\s]: white space and line terminators. *)
Definition is_space (c : codepoint) : bool :=
  (c =? 0x09) || (c =? 0x0A) || (c =? 0x0B) || (c =? 0x0C) || (c =? 0x0D)
  || (c =? 0x20) || (c =? 0xA0) || (c =? 0x1680)
  || ((0x2000 <=? c) && (c <=? 0x200A))
  || (c =? 0x2028) || (c =? 0x2029) || (c =? 0x202F) || (c =? 0x205F)
  || (c =? 0x3000) || (c =? 0xFEFF).

(** [[^\r\n]] *)
Definition not_newline (c : codepoint) : bool :=
  negb ((c =? 0x0D) || (c =? 0x0A)).

(** The greedy star of a class: the longest run is tried first, and
    each time the continuation fails one character is given back. *)
Fixpoint star {R} (p : codepoint -> bool) (s : text)
    (k : text -> text -> option R) : option R :=
  match s with
  | x :: s' =>
      if p x then
        match star p s' (fun m rest => k (x :: m) rest) with
        | Some res => Some res
        | None => k [] s
        end
      else k [] s
  | [] => k [] s
  end.

(** [run r s cap k] matches [r] at the start of [s] and hands what it
    matched, the rest of the input and the capture to the continuation
    [k]; when [k] fails the matcher backtracks into [r]. *)
Fixpoint run {R} (r : regex) (s : text) (cap : option text)
    (k : text -> text -> option text -> option R) : option R :=
  match r with
  | Lit c =>
      match s with
      | x :: s' => if x =? c then k [x] s' cap else None
      | [] => None
      end
  | Class p =>
      match s with
      | x :: s' => if p x then k [x] s' cap else None
      | [] => None
      end
  | Star p => star p s (fun m rest => k m rest cap)
  | Seq r1 r2 =>
      run r1 s cap (fun m1 s1 cap1 =>
        run r2 s1 cap1 (fun m2 s2 cap2 => k (m1 ++ m2) s2 cap2))
  | Group r' => run r' s cap (fun m s' _ => k m s' (Some m))
  end.

Fixpoint literal (t : text) (r : regex) : regex :=
  match t with
  | [] => r
  | c :: t' => Seq (Lit c) (literal t' r)
  end.

Record Match : Type := {
  matched : text;      (* the whole match *)
  group1 : text;       (* the first capture *)
  after : text         (* the input after the match *)
}.

(** One attempt at the start of [s]. *)
Definition match_here (r : regex) (s : text) : option Match :=
  run r s None (fun m rest cap =>
    Some {| matched := m; group1 := default [] cap; after := rest |}).

(** [s.replace(r, replacer)] for a global [r] whose matches are never
    empty: the input is scanned from the left; at each position the
    pattern is tried, a match is replaced by what [replacer] returns for
    it and the scan goes on after the match, otherwise the character is
    kept. Every step consumes input, so [length s] steps are enough. *)
Fixpoint replace_steps (steps : nat) (r : regex) (replacer : text -> text -> text)
    (s : text) : text :=
  match steps with
  | O => s
  | S steps' =>
      match s with
      | [] => []
      | c :: s' =>
          match match_here r s with
          | Some m => replacer (matched m) (group1 m)
                        ++ replace_steps steps' r replacer (after m)
          | None => c :: replace_steps steps' r replacer s'
          end
      end
  end.

Definition replace (r : regex) (replacer : text -> text -> text) (s : text) : text :=
  replace_steps (length s) r replacer s.

End Regex.

(** ** The SSE rewrite helper *)

Module Sse.
Import Text Regex.
Local Open Scope N_scope.
Local Open Scope list_scope.

(** The global pattern of the helper: the literal data:, then [\s*], then
    the capture group made of a slash and [[^\r\n]*]. *)
Definition pattern : regex :=
  literal (str "data:") (Seq (Star is_space) (Group (Seq (Lit 0x2F) (Star not_newline)))).

(** The replacer of the helper, [(m, rel) => ...]. *)
Definition replacer (origin : text) (m rel : text) : text :=
  if startsWith rel (str "http://") || startsWith rel (str "https://")
  then str "data: " ++ rel
  else str "data: " ++ origin ++ rel.

Definition rewrite (origin : text) (chunkText : text) : text :=
  replace pattern (replacer origin) chunkText.

(** *** Occurrences, in the words of the specification

    An occurrence is the literal data:, optional white space, and a string
    that begins with a slash and runs to the end of its line. *)

Definition DATA : text := str "data:".
Definition SLASH : codepoint := 0x2F.

Fixpoint strip_prefix (prefix s : text) : option text :=
  match prefix, s with
  | [], _ => Some s
  | p :: prefix', c :: s' => if c =? p then strip_prefix prefix' s' else None
  | _ :: _, [] => None
  end.

(** The longest prefix whose characters satisfy [p], and what follows it. *)
Fixpoint span (p : codepoint -> bool) (s : text) : text * text :=
  match s with
  | c :: s' => if p c then (c :: fst (span p s'), snd (span p s')) else ([], s)
  | [] => ([], [])
  end.

(** The occurrence that starts [s], if one does: its white space, its
    path after the slash, and the text after it. *)
Definition occurrence (s : text) : option (text * text * text) :=
  match strip_prefix DATA s with
  | None => None
  | Some s1 =>
      match snd (span is_space s1) with
      | c :: s3 =>
          if c =? SLASH
          then Some (fst (span is_space s1), fst (span not_newline s3),
                     snd (span not_newline s3))
          else None
      | [] => None
      end
  end.

(** [s] begins with data:, optional white space and a slash. *)
Definition Occurs (s : text) : Prop :=
  exists ws tail, s = DATA ++ ws ++ SLASH :: tail /\ Forall (fun c => is_space c = true) ws.

(** No occurrence starts at any position of [part], read in [part ++ rest]. *)
Definition free_of_occurrences (part rest : text) : Prop :=
  forall before from, part = before ++ from -> from <> [] -> ~ Occurs (from ++ rest).

Definition is_newline (c : codepoint) : bool := negb (not_newline c).

(** What precedes a line: nothing, or text that ends with a line break;
    what follows a line: nothing, or text that begins with a line break. *)
Definition starts_line (before : text) : Prop :=
  before = [] \/ exists p c, before = p ++ [c] /\ is_newline c = true.

Definition ends_line (after : text) : Prop :=
  after = [] \/ exists c a, after = c :: a /\ is_newline c = true.

(** [s] neither continues white space nor supplies the slash. *)
Definition inert (s : text) : Prop :=
  s = [] \/ exists c s', s = c :: s' /\ is_space c = false /\ c <> SLASH.

Definition last_is (nl : codepoint) (l : text) : Prop := exists p, l = p ++ [nl].

(** The two states of the filter, for the flag [firstChunk]. *)
Inductive FilterState : Type :=
| AwaitingFirstChunk
| PassThrough.

Definition state_of (firstChunk : bool) : FilterState :=
  if firstChunk then AwaitingFirstChunk else PassThrough.

(** One turn of the loop of [start]: the chunk read, the flag [firstChunk]
    before it; the flag after it and the chunk enqueued. *)
Definition on_chunk (origin : text) (firstChunk : bool) (value : list Byte.byte)
  : bool * list Byte.byte :=
  let chunkText := decode value in
  if firstChunk && truthy chunkText
  then (false, encode (rewrite origin chunkText))
  else (firstChunk, encode chunkText).

(** The loop over the chunks the reader delivers. *)
Fixpoint pump (origin : text) (firstChunk : bool) (chunks : list (list Byte.byte))
  : list (list Byte.byte) :=
  match chunks with
  | [] => []
  | value :: later =>
      let '(firstChunk', out) := on_chunk origin firstChunk value in
      out :: pump origin firstChunk' later
  end.

(** How a stream ends: the reader reports [done], or a read fails. *)
Inductive Ending : Type :=
| Closed
| Errored (reason : Js.Exception).

Record Stream : Type := { chunks : list (list Byte.byte); ending : Ending }.

(** [start(controller)]: [firstChunk] is [true] when the loop begins; the
    stream is closed when the reader is done, and a failed read is passed
    to [controller.error]. *)
Definition start (origin : text) (body : Stream) : Stream :=
  {| chunks := pump origin true (chunks body); ending := ending body |}.


Definition LF : codepoint := 0x0A.

(** What the loop enqueues for a chunk it does not rewrite. *)
Definition reencode (value : list Byte.byte) : list Byte.byte := encode (decode value).

(** A chunk that is well-formed UTF-8 by itself and does not begin with a
    byte order mark: the encoding of plain text. *)
Definition well_formed (value : list Byte.byte) : Prop :=
  exists t, plain t /\ value = encode t.

(** A decision procedure for [free_of_occurrences]. *)
Fixpoint no_occurrence_in (part rest : text) : bool :=
  match part with
  | [] => true
  | c :: part' =>
      match occurrence (part ++ rest) with
      | None => no_occurrence_in part' rest
      | Some _ => false
      end
  end.

(** The line of the endpoint event and what it becomes. *)
Definition relative_line : text := str "data: /sse/message?sessionId=abc".
Definition absolute_line : text := str "data: https://example.com/sse/message?sessionId=abc".
Definition example_origin : text := str "https://example.com".

Definition two_occurrences : text :=
  str "event: endpoint" ++ [LF] ++ str "data:   /sse/message?sessionId=abc" ++ [LF; LF]
  ++ str "event: message" ++ [LF] ++ str "data: see data:/docs" ++ [LF; LF].

Definition two_rewritten : text :=
  str "event: endpoint" ++ [LF] ++ str "data: https://example.com/sse/message?sessionId=abc"
  ++ [LF; LF] ++ str "event: message" ++ [LF]
  ++ str "data: see data: https://example.com/docs" ++ [LF; LF].

End Sse.

(** ** The worker: the helper and [fetch] as wholes *)

Module Worker.
Import Router.

Record Response : Type := {
  body : option Sse.Stream;
  status : N;
  statusText : string;
  headers : list (string * string)
}.

(** [headers.set(k, v)] on a header list. *)
Fixpoint headers_set (k v : string) (hs : list (string * string)) : list (string * string) :=
  match hs with
  | [] => [(k, v)]
  | (k', v') :: hs' =>
      if String.eqb k' k then (k, v) :: filter (fun kv => negb (String.eqb (fst kv) k)) hs'
      else (k', v') :: headers_set k v hs'
  end.

Definition copy_headers (hs : list (string * string)) : list (string * string) :=
  fold_left (fun acc kv => headers_set (fst kv) (snd kv) acc) hs [].

(** The helper takes [resp] and [requestUrl]; its body also reads the
    identifier [request], which is neither a parameter nor a local of the
    helper. [request_in_scope] is what that identifier is bound to in the
    scopes around the helper, if anything; reading an unbound identifier
    throws a ReferenceError. *)
Definition read_request (request_in_scope : option Request) : Js.Completion Request :=
  match request_in_scope with
  | Some request => Js.Return request
  | None => Js.Throw (Js.ReferenceError "request is not defined")
  end.

(** [a ?? b] *)
Definition nullish (a : option string) (b : string) : string :=
  match a with
  | Some s => s
  | None => b
  end.

Definition rewriteSseResponseToAbsolute (request_in_scope : option Request)
    (resp : Response) (requestUrl : URL) : Js.Completion Response :=
  match body resp with
  | None => Js.Return resp
  | Some reader =>
      let urlObj := requestUrl in
      request ← read_request request_in_scope;
      let origin := protocol urlObj ++ "//" ++ nullish (host_header request) (host urlObj) in
      let transformed := Sse.start (Text.str origin) reader in
      Js.Return {| body := Some transformed;
                   status := status resp;
                   statusText := statusText resp;
                   headers := copy_headers (headers resp) |}
  end.

(** The module binds [McpAgent], [McpServer], [z], [MyMCP] and
    [rewriteSseResponseToAbsolute] at its top level and the runtime of the
    worker has no global named [request]: in the helper the identifier is
    unbound. *)
Definition module_scope_request : option Request := None.

Definition text_body (s : string) : option Sse.Stream :=
  Some {| Sse.chunks := [Text.encode (Text.str s)]; Sse.ending := Sse.Closed |}.

Section Fetch.
(** The handlers of the SDK: [MyMCP.serveSSE("/sse").fetch] and
    [MyMCP.serve("/sse/message").fetch]. *)
Variable serveSSE_fetch : Request -> Js.Completion Response.
Variable serve_fetch : Request -> Js.Completion Response.

Definition fetch (request : Request) : Js.Completion Response :=
  match route request with
  | StreamOpen =>
      sseResp ← serveSSE_fetch request;
      rewriteSseResponseToAbsolute module_scope_request sseResp (url request)
  | MessagePost => serve_fetch request
  | RootText =>
      Js.Return {| body := text_body "MCP Worker - endpoints: /sse (SSE entrypoint) and /sse/message (POST JSON-RPC).";
                   status := 200; statusText := "";
                   headers := [("Content-Type", "text/plain")] |}
  | NotFound =>
      Js.Return {| body := text_body "Not found"; status := 404; statusText := "";
                   headers := [] |}
  end.

End Fetch.

End Worker.

(** ** The trust catalog server ([src/index.ts]) *)

Module Catalog.

Inductive TrustFactorKey : Type :=
| CMP09_complianceSOC_2
| CMP06_complianceISO_27001
| PRV01_dataProtection
| CMP19_complianceCSAStarCert
| CMP18_complianceFedRAMP
| IDD01_iddIntegrationPlatform
| SEC28_securityPenTest
| CMP04_complianceHIPAA
| CMP22_complianceISO_27017
| CMP16_complianceISO_27018
| SEC33_complianceVulnerabilityScanning
| CMP25_complianceCOPPA.

(** The string each member of the enum stands for. *)
Definition key_string (k : TrustFactorKey) : string :=
  match k with
  | CMP09_complianceSOC_2 => "CMP09_complianceSOC_2"
  | CMP06_complianceISO_27001 => "CMP06_complianceISO_27001"
  | PRV01_dataProtection => "PRV01_dataProtection"
  | CMP19_complianceCSAStarCert => "CMP19_complianceCSAStarCert"
  | CMP18_complianceFedRAMP => "CMP18_complianceFedRAMP"
  | IDD01_iddIntegrationPlatform => "IDD01_iddIntegrationPlatform"
  | SEC28_securityPenTest => "SEC28_securityPenTest"
  | CMP04_complianceHIPAA => "CMP04_complianceHIPAA"
  | CMP22_complianceISO_27017 => "CMP22_complianceISO_27017"
  | CMP16_complianceISO_27018 => "CMP16_complianceISO_27018"
  | SEC33_complianceVulnerabilityScanning => "SEC33_complianceVulnerabilityScanning"
  | CMP25_complianceCOPPA => "CMP25_complianceCOPPA"
  end.

(** The values of type [any] the server handles: what [response.json()]
    can give, and [undefined]. The properties of an object are kept in the
    order of the document. *)
#[warnings="-register-all"]
Inductive JsVal : Type :=
| Undefined
| Null
| Bool (b : bool)
| Number (x : float)
| Str (s : string)
| Array (items : list JsVal)
| Object (props : list (string * JsVal)).

Definition is_nan (x : float) : bool := negb (PrimFloat.eqb x x).

Definition truthy (v : JsVal) : bool :=
  match v with
  | Undefined | Null => false
  | Bool b => b
  | Number x => negb (PrimFloat.eqb x 0%float || is_nan x)
  | Str s => negb (String.eqb s "")
  | Array _ | Object _ => true
  end.

(** A key written twice in a document keeps its last value. *)
Definition own_property (name : string) (props : list (string * JsVal)) : option JsVal :=
  fold_left (fun found kv => if String.eqb (fst kv) name then Some (snd kv) else found)
            props None.

(** [v.name] for one of the names the handler reads. On [null] and
    [undefined] the access throws; on an object without the property, and
    on every other value, it is [undefined]. *)
Definition get (v : JsVal) (name : string) : Js.Completion JsVal :=
  match v with
  | Undefined | Null =>
      Js.Throw (Js.TypeError ("Cannot read properties of null or undefined (reading " ++ name ++ ")"))
  | Object props => Js.Return (default Undefined (own_property name props))
  | _ => Js.Return Undefined
  end.

Definition isArray (v : JsVal) : bool :=
  match v with
  | Array _ => true
  | _ => false
  end.

(** [SameValueZero(v, key)] for a string [key]. *)
Definition same_as_string (key : string) (v : JsVal) : bool :=
  match v with
  | Str s => String.eqb s key
  | _ => false
  end.

(** [v.includes(key)] on a value known to be an array. *)
Definition includes (v : JsVal) (key : string) : bool :=
  match v with
  | Array items => existsb (same_as_string key) items
  | _ => false
  end.

(** [a || b], the second operand evaluated only when needed. *)
Definition or_else (a : JsVal) (b : Js.Completion JsVal) : Js.Completion JsVal :=
  if truthy a then Js.Return a else b.

Fixpoint join (sep : string) (parts : list string) : string :=
  match parts with
  | [] => ""
  | [s] => s
  | s :: rest => s ++ sep ++ join sep rest
  end.

Definition LF : string := String (ascii_of_N 10) EmptyString.

Record ContentBlock : Type := { type : string; text : string }.
Record ToolResult : Type := { content : list ContentBlock }.

Section Server.
(** [String(x)] on a number; the platform's Number::toString. *)
Variable String_of_number : float -> string.

(** The string [join] makes of an element. An object parsed from a
    document has data properties only: with an own [toString] the
    conversion finds nothing to call and throws, otherwise
    [Object.prototype.toString] answers. An array is joined with commas,
    [null] and [undefined] elements giving the empty string. *)
Fixpoint to_string (v : JsVal) : Js.Completion string :=
  match v with
  | Undefined => Js.Return "undefined"
  | Null => Js.Return "null"
  | Bool b => Js.Return (if b then "true" else "false")
  | Number x => Js.Return (String_of_number x)
  | Str s => Js.Return s
  | Array items =>
      let joined :=
        (fix elements (l : list JsVal) : Js.Completion (list string) :=
           match l with
           | [] => Js.Return []
           | x :: l' =>
               match (match x with
                      | Undefined | Null => Js.Return ""
                      | _ => to_string x
                      end) with
               | Js.Throw exn => Js.Throw exn
               | Js.Return s =>
                   match elements l' with
                   | Js.Throw exn => Js.Throw exn
                   | Js.Return rest => Js.Return (s :: rest)
                   end
               end
           end) items in
      parts ← joined; Js.Return (join "," parts)
  | Object props =>
      match own_property "toString" props with
      | Some _ => Js.Throw (Js.TypeError "Cannot convert object to primitive value")
      | None => Js.Return "[object Object]"
      end
  end.

Definition element_string (v : JsVal) : Js.Completion string :=
  match v with
  | Undefined | Null => Js.Return ""
  | _ => to_string v
  end.

(** [items.filter(f)], [items.map(f)] for callbacks that may throw. *)
Fixpoint filterM {A} (f : A -> Js.Completion bool) (l : list A) : Js.Completion (list A) :=
  match l with
  | [] => Js.Return []
  | x :: l' =>
      keep ← f x;
      rest ← filterM f l';
      Js.Return (if (keep : bool) then x :: rest else rest)
  end.

Fixpoint mapM {A B} (f : A -> Js.Completion B) (l : list A) : Js.Completion (list B) :=
  match l with
  | [] => Js.Return []
  | x :: l' =>
      y ← f x;
      rest ← mapM f l';
      Js.Return (y :: rest)
  end.

(** [catalog.filter] and the like need [catalog] to be an array. *)
Definition as_array (v : JsVal) : Js.Completion (list JsVal) :=
  match v with
  | Array items => Js.Return items
  | _ => Js.Throw (Js.TypeError "catalog.filter is not a function")
  end.

(** The chain [catalog.filter(...).map(...).filter(Boolean)]. *)
Definition matchingApps (trustFactorKey : string) (catalog : JsVal)
  : Js.Completion (list JsVal) :=
  items ← as_array catalog;
  kept ← filterM (fun item =>
            factors ← get item "TrustFactors";
            Js.Return (isArray factors && includes factors trustFactorKey)) items;
  ids ← mapM (fun item =>
            teams ← get item "TeamsAppId";
            or_else teams (get item "OfficeAssetId")) kept;
  Js.Return (filter (fun v => truthy v = true) ids).

(** The handler of [get-appsWithTrustFilter], from the catalog that
    [await fetchTrustCatalog()] gave (or the exception it threw). *)
Definition get_appsWithTrustFilter (trustFactorKey : TrustFactorKey) (fetched : Js.Completion JsVal)
  : Js.Completion ToolResult :=
  catalog ← fetched;
  apps ← matchingApps (key_string trustFactorKey) catalog;
  text ← match apps with
         | _ :: _ =>
             parts ← mapM element_string apps;
             Js.Return ("Matching App IDs for " ++ key_string trustFactorKey ++ ":"
                          ++ LF ++ join LF parts)
         | [] =>
             Js.Return ("No apps found with trust factor: " ++ key_string trustFactorKey)
         end;
  Js.Return {| content := [ {| type := "text"; text := text |} ] |}.

End Server.

(** *** [fetchTrustCatalog] and its interleavings

    An async function runs until its next [await] without interruption.
    An activation of [fetchTrustCatalog] is therefore in one of three
    places: suspended on [await fetch(...)], suspended on
    [await response.json()], or settled. *)

(** What the awaited [fetch] gives: the status flag of the response and
    what [response.json()] will give. *)
Record FetchResponse : Type := { ok : bool; json : Js.Completion JsVal }.

Inductive Activation : Type :=
| AwaitingFetch
| AwaitingJson (parsing : Js.Completion JsVal)
| Settled (result : Js.Completion JsVal).

Record World : Type := {
  trustCatalogCache : JsVal;          (* the module variable *)
  fetches : nat;                      (* outbound fetches issued so far *)
  activations : gmap nat Activation
}.

Definition initial : World :=
  {| trustCatalogCache := Null; fetches := 0; activations := ∅ |}.

Inductive Event : Type :=
| Call (id : nat)                                        (* fetchTrustCatalog() is called *)
| FetchSettles (id : nat) (outcome : Js.Completion FetchResponse)
| JsonSettles (id : nat).

Definition step (w : World) (e : Event) : World :=
  match e with
  | Call id =>
      if truthy (trustCatalogCache w)
      then {| trustCatalogCache := trustCatalogCache w;
              fetches := fetches w;
              activations := <[id := Settled (Js.Return (trustCatalogCache w))]> (activations w) |}
      else {| trustCatalogCache := trustCatalogCache w;
              fetches := S (fetches w);
              activations := <[id := AwaitingFetch]> (activations w) |}
  | FetchSettles id outcome =>
      match activations w !! id with
      | Some AwaitingFetch =>
          let next :=
            match outcome with
            | Js.Throw exn => Settled (Js.Throw exn)
            | Js.Return response =>
                if negb (ok response)
                then Settled (Js.Throw (Js.Error "Failed to fetch catalog"))
                else AwaitingJson (json response)
            end in
          {| trustCatalogCache := trustCatalogCache w;
             fetches := fetches w;
             activations := <[id := next]> (activations w) |}
      | _ => w
      end
  | JsonSettles id =>
      match activations w !! id with
      | Some (AwaitingJson (Js.Return parsed)) =>
          {| trustCatalogCache := parsed;
             fetches := fetches w;
             activations := <[id := Settled (Js.Return parsed)]> (activations w) |}
      | Some (AwaitingJson (Js.Throw exn)) =>
          {| trustCatalogCache := trustCatalogCache w;
             fetches := fetches w;
             activations := <[id := Settled (Js.Throw exn)]> (activations w) |}
      | _ => w
      end
  end.

Definition run (w : World) (events : list Event) : World := fold_left step events w.

(** A call that nothing else interleaves with: it runs to its end, the
    network answering [outcome] if it is asked. *)
Definition fetchTrustCatalog (w : World) (id : nat) (outcome : Js.Completion FetchResponse) : World :=
  run w [Call id; FetchSettles id outcome; JsonSettles id].

Definition result (w : World) (id : nat) : option (Js.Completion JsVal) :=
  match activations w !! id with
  | Some (Settled r) => Some r
  | _ => None
  end.

(** *** The catalog as the specification types it *)

Record CatalogEntry : Type := {
  TrustFactors : list string;
  TeamsAppId : option string;
  OfficeAssetId : option string;
  others : list (string * JsVal)      (* the fields the tool does not read *)
}.

Definition optional_field (name : string) (v : option string) : list (string * JsVal) :=
  match v with
  | Some s => [(name, Str s)]
  | None => []
  end.

Definition reserved (name : string) : bool :=
  String.eqb name "TrustFactors" || String.eqb name "TeamsAppId"
  || String.eqb name "OfficeAssetId".

(** The document value of an entry; the fields the tool reads are the
    entry's own, whatever [others] holds. *)
Definition entry_value (e : CatalogEntry) : JsVal :=
  Object (filter (fun kv => reserved (fst kv) = false) (others e)
            ++ [("TrustFactors", Array (map Str (TrustFactors e)))]
            ++ optional_field "TeamsAppId" (TeamsAppId e)
            ++ optional_field "OfficeAssetId" (OfficeAssetId e)).

Definition catalog_value (entries : list CatalogEntry) : JsVal :=
  Array (map entry_value entries).

Definition has_factor (key : string) (e : CatalogEntry) : bool :=
  existsb (String.eqb key) (TrustFactors e).

(** The text of the result for a list of ids. *)
Definition render (key : TrustFactorKey) (ids : list string) : string :=
  match ids with
  | [] => "No apps found with trust factor: " ++ key_string key
  | _ :: _ => "Matching App IDs for " ++ key_string key ++ ":" ++ LF ++ join LF ids
  end.

(** The ids as the claim words them: of an entry that has the factor, the
    TeamsAppId if present, else the OfficeAssetId; an entry with neither
    is dropped. *)
Definition id_if_present (e : CatalogEntry) : option string :=
  match TeamsAppId e with
  | Some s => Some s
  | None => OfficeAssetId e
  end.

Definition ids_as_claimed (key : string) (entries : list CatalogEntry) : list string :=
  omap id_if_present (filter (fun e => has_factor key e = true) entries).

(** The same with "present" read as "present and not the empty string". *)
Definition non_empty (v : option string) : option string :=
  match v with
  | Some s => if String.eqb s "" then None else Some s
  | None => None
  end.

Definition id_if_non_empty (e : CatalogEntry) : option string :=
  match non_empty (TeamsAppId e) with
  | Some s => Some s
  | None => non_empty (OfficeAssetId e)
  end.

Definition ids_non_empty (key : string) (entries : list CatalogEntry) : list string :=
  omap id_if_non_empty (filter (fun e => has_factor key e = true) entries).

(** The value of an optional string field, and the value the [map] step
    gives an entry. *)
Definition field_value (v : option string) : JsVal :=
  match v with
  | Some s => Str s
  | None => Undefined
  end.

Definition id_value (e : CatalogEntry) : JsVal :=
  if truthy (field_value (TeamsAppId e)) then field_value (TeamsAppId e)
  else field_value (OfficeAssetId e).

(** The calls among the events of a trace. *)
Definition is_call (e : Event) : bool := match e with Call _ => true | _ => false end.
Definition is_json_settles (e : Event) : bool := match e with JsonSettles _ => true | _ => false end.
Definition calls (events : list Event) : nat := length (filter (fun e => is_call e = true) events).

(** What the activation becomes once the answer of the network is in and
    the body, if it is read at all, is parsed. *)
Definition settle (cache : JsVal) (outcome : Js.Completion FetchResponse)
  : JsVal * Js.Completion JsVal :=
  match outcome with
  | Js.Throw exn => (cache, Js.Throw exn)
  | Js.Return response =>
      if negb (ok response) then (cache, Js.Throw (Js.Error "Failed to fetch catalog"))
      else match json response with
           | Js.Return parsed => (parsed, Js.Return parsed)
           | Js.Throw exn => (cache, Js.Throw exn)
           end
  end.

End Catalog.

(** ** Further vocabulary for the properties of the code *)

Module Schema.
Import Calculator.

(** The operations the schema of [calculate] admits,
    [z.enum(["add", "subtract", "multiply", "divide"])]. *)
Definition operations : list string := ["add"; "subtract"; "multiply"; "divide"].

End Schema.

Module Paths.
Import Router.

Fixpoint slashes (n : nat) : string :=
  match n with
  | O => EmptyString
  | S n' => String "/" (slashes n')
  end.

Fixpoint ends_with_slash (s : string) : bool :=
  match s with
  | EmptyString => false
  | String c EmptyString => Ascii.eqb c "/"
  | String _ rest => ends_with_slash rest
  end.

Definition is_root_text (r : Route) : bool :=
  match r with
  | RootText => true
  | _ => false
  end.

Definition with_pathname (u : URL) (p : string) : URL :=
  {| protocol := protocol u; host := host u; pathname := p; search := search u |}.

(** The value the first header named [k] carries, and the value the last
    one carries. *)
Fixpoint first_value (k : string) (hs : list (string * string)) : option string :=
  match hs with
  | [] => None
  | (k', v) :: hs' => if String.eqb k' k then Some v else first_value k hs'
  end.

Definition last_value (k : string) (hs : list (string * string)) : option string :=
  first_value k (rev hs).

(** The headers not named [k], and the loop of the copy from the headers
    already set. *)
Definition without (k : string) (hs : list (string * string)) : list (string * string) :=
  filter (fun kv => negb (String.eqb (fst kv) k)) hs.

Definition copy_from (acc hs : list (string * string)) : list (string * string) :=
  fold_left (fun acc kv => Worker.headers_set (fst kv) (snd kv) acc) hs acc.

End Paths.

Module Flow.
Import Text Sse.

(** No chunk of the list has text. *)
Definition all_empty (chunks : list (list Byte.byte)) : bool :=
  forallb (fun v => negb (truthy (decode v))) chunks.

(** A block of complete lines: it is not empty, ends with a line break
    and begins with a character that is neither white space nor a slash. *)
Definition block (l : text) : Prop :=
  l <> [] /\ starts_line l /\ inert l.

End Flow.

Module Tool.
Import Catalog.

(** No activation of [fetchTrustCatalog] is suspended. *)
Definition quiescent (w : World) : Prop :=
  forall id a, activations w !! id = Some a -> exists r, a = Settled r.

(** One call of the tool with nothing interleaved: the handler awaits
    [fetchTrustCatalog()] and goes on with what it gave. *)
Definition call_tool (String_of_number : float -> string) (w : World) (id : nat)
    (key : TrustFactorKey) (outcome : Js.Completion FetchResponse)
  : World * option (Js.Completion ToolResult) :=
  let w' := fetchTrustCatalog w id outcome in
  (w', get_appsWithTrustFilter String_of_number key <$> result w' id).

Definition text_block (s : string) : ToolResult :=
  {| content := [ {| type := "text"; text := s |} ] |}.

Definition ok_with (v : JsVal) : Js.Completion FetchResponse :=
  Js.Return {| ok := true; json := Js.Return v |}.

Definition not_ok : Js.Completion FetchResponse :=
  Js.Return {| ok := false; json := Js.Return Null |}.

End Tool.

(** * Properties *)

(** ** The calculator *)

Section CalculatorFacts.
Import Calculator.
Variable String_of_number : float -> string.

(** C9. For every number [a], [calculate("divide", a, 0)] returns normally
    (no exception is thrown), its content is the single text block
    "Error: Cannot divide by zero", and the run performs no arithmetic at
    all, so in particular no division. *)
Theorem calculate_divide_by_zero (a : float) :
  calculate String_of_number "divide" a 0%float
  = ([], Js.Return {| content :=
                        [ {| type := "text";
                             text := "Error: Cannot divide by zero" |} ] |}).
Proof. reflexivity. Qed.

(** The same holds of the negative zero, which [===] identifies with [0]. *)
Lemma calculate_divide_by_negative_zero (a : float) :
  calculate String_of_number "divide" a (-0)%float
  = ([], Js.Return (text_result "Error: Cannot divide by zero")).
Proof. reflexivity. Qed.

(** A divisor that is not zero is divided by. *)
Lemma calculate_divide_nonzero (a b : float) :
  PrimFloat.eqb b 0%float = false ->
  calculate String_of_number "divide" a b
  = ([Divide a b], Js.Return (text_result (String_of_number (a / b)%float))).
Proof.
  intros H. unfold calculate, Js.strict_eq_number. simpl. rewrite H. reflexivity.
Qed.

End CalculatorFacts.

(** ** The router *)

Section RouterFacts.
Import Router Worker.

(** The first test of [fetch] looks at the path only. *)
Lemma route_mcp_any_method (request : Request) :
  normalize_path (url request) = "/mcp" -> route request = StreamOpen.
Proof. intros H. unfold route. rewrite H. reflexivity. Qed.

Lemma normalize_trailing_slashes :
  normalize_path {| protocol := "https:"; host := "h"; pathname := "/mcp//"; search := "" |}
  = "/mcp".
Proof. reflexivity. Qed.

(** No request whose path is /mcp reaches the message-post branch. *)
Lemma message_post_is_not_mcp (request : Request) :
  route request = MessagePost -> normalize_path (url request) <> "/mcp".
Proof.
  intros Hr Hp. rewrite (route_mcp_any_method _ Hp) in Hr. discriminate.
Qed.

(** C1 (the code at the failing input). A request to /mcp is routed the
    same way whatever its method: a POST goes, as a GET does, to the
    stream-open handler of the SDK followed by the rewrite helper, and the
    message-post handler is not called. *)
Theorem post_mcp_is_routed_to_stream_open :
  route (mcp_request "POST") = StreamOpen
  /\ (forall m, route (mcp_request m) = StreamOpen)
  /\ (forall serveSSE_fetch serve_fetch,
        fetch serveSSE_fetch serve_fetch (mcp_request "POST")
        = (sseResp ← serveSSE_fetch (mcp_request "POST");
           rewriteSseResponseToAbsolute module_scope_request sseResp
             (url (mcp_request "POST")))).
Proof. split; [reflexivity|]. split; reflexivity. Qed.

End RouterFacts.

(** ** The tool get-appsWithTrustFilter *)

Section CatalogFacts.
Import Catalog.

Lemma last_binding_from name (l : list (string * JsVal)) (acc : option JsVal) :
  fold_left (fun found kv => if String.eqb (fst kv) name then Some (snd kv) else found) l acc
  = match own_property name l with
    | Some v => Some v
    | None => acc
    end.
Proof.
  unfold own_property. revert acc.
  induction l as [|[k v] l IH]; intros acc; simpl; [reflexivity|].
  rewrite IH. rewrite (IH (if String.eqb k name then _ else _)).
  destruct (fold_left _ l None); [reflexivity|].
  destruct (String.eqb k name); reflexivity.
Qed.

Lemma own_property_app name (l1 l2 : list (string * JsVal)) :
  own_property name (l1 ++ l2)
  = match own_property name l2 with
    | Some v => Some v
    | None => own_property name l1
    end.
Proof.
  unfold own_property at 1. rewrite fold_left_app, last_binding_from. reflexivity.
Qed.

Lemma own_property_cons name k v (l : list (string * JsVal)) :
  own_property name ((k, v) :: l)
  = match own_property name l with
    | Some x => Some x
    | None => if String.eqb k name then Some v else None
    end.
Proof. unfold own_property at 1. simpl. apply last_binding_from. Qed.

Lemma own_property_others name (l : list (string * JsVal)) :
  reserved name = true ->
  own_property name (filter (fun kv => reserved (fst kv) = false) l) = None.
Proof.
  intros Hname. induction l as [|[k v] l IH]; [reflexivity|].
  rewrite filter_cons. case_decide as Hk; [|exact IH].
  rewrite own_property_cons, IH. simpl in Hk.
  destruct (String.eqb_spec k name) as [->|]; [congruence | reflexivity].
Qed.

Lemma get_TrustFactors e :
  get (entry_value e) "TrustFactors" = Js.Return (Array (map Str (TrustFactors e))).
Proof.
  unfold get, entry_value. rewrite own_property_app.
  destruct (TeamsAppId e), (OfficeAssetId e); reflexivity.
Qed.

Lemma get_TeamsAppId e :
  get (entry_value e) "TeamsAppId" = Js.Return (field_value (TeamsAppId e)).
Proof.
  unfold get, entry_value. rewrite own_property_app.
  destruct (TeamsAppId e), (OfficeAssetId e); simpl;
    rewrite ?own_property_cons; simpl;
    rewrite ?own_property_others by reflexivity; reflexivity.
Qed.

Lemma get_OfficeAssetId e :
  get (entry_value e) "OfficeAssetId" = Js.Return (field_value (OfficeAssetId e)).
Proof.
  unfold get, entry_value. rewrite own_property_app.
  destruct (TeamsAppId e), (OfficeAssetId e); simpl;
    rewrite ?own_property_cons; simpl;
    rewrite ?own_property_others by reflexivity; reflexivity.
Qed.

Lemma includes_factors key (factors : list string) :
  includes (Array (map Str factors)) key = existsb (String.eqb key) factors.
Proof.
  simpl. induction factors as [|s factors IH]; [reflexivity|].
  simpl. rewrite IH, (String.eqb_sym s key). reflexivity.
Qed.

Lemma filter_entries key entries :
  filterM (fun item =>
             factors ← get item "TrustFactors";
             Js.Return (isArray factors && includes factors key))
          (map entry_value entries)
  = Js.Return (map entry_value (filter (fun e => has_factor key e = true) entries)).
Proof.
  induction entries as [|e entries IH]; [reflexivity|].
  cbn [map filterM]. rewrite IH, get_TrustFactors.
  cbn [mbind Js.completion_bind isArray andb].
  rewrite includes_factors, filter_cons.
  destruct (existsb _ _) eqn:E; case_decide as H; unfold has_factor in H;
    try congruence; reflexivity.
Qed.

Lemma map_entries entries :
  mapM (fun item =>
          teams ← get item "TeamsAppId";
          or_else teams (get item "OfficeAssetId"))
       (map entry_value entries) = Js.Return (map id_value entries).
Proof.
  induction entries as [|e entries IH]; [reflexivity|].
  cbn [map mapM]. rewrite IH, get_TeamsAppId, get_OfficeAssetId.
  cbn [mbind Js.completion_bind]. unfold or_else, id_value.
  destruct (truthy (field_value (TeamsAppId e))); reflexivity.
Qed.

Lemma keep_truthy v (ids : list JsVal) :
  filter (fun v => truthy v = true) (v :: ids)
  = if truthy v then v :: filter (fun v => truthy v = true) ids
    else filter (fun v => truthy v = true) ids.
Proof. rewrite filter_cons. destruct (truthy v); case_decide; congruence. Qed.

Lemma truthy_field (v : option string) :
  truthy (field_value v) = match non_empty v with Some _ => true | None => false end.
Proof. destruct v as [s|]; [|reflexivity]. simpl. destruct (String.eqb s ""); reflexivity. Qed.

Lemma non_empty_field (v : option string) s :
  non_empty v = Some s -> field_value v = Str s.
Proof.
  destruct v as [s'|]; [|discriminate]. simpl.
  destruct (String.eqb s' ""); congruence.
Qed.

Lemma truthy_ids entries :
  filter (fun v => truthy v = true) (map id_value entries)
  = map Str (omap id_if_non_empty entries).
Proof.
  induction entries as [|e entries IH]; [reflexivity|].
  cbn [map omap list_omap]. rewrite keep_truthy, IH.
  unfold id_value, id_if_non_empty. rewrite !truthy_field.
  destruct (non_empty (TeamsAppId e)) as [t|] eqn:Et.
  - rewrite truthy_field, Et, (non_empty_field _ _ Et). reflexivity.
  - rewrite truthy_field.
    destruct (non_empty (OfficeAssetId e)) as [o|] eqn:Eo; [|reflexivity].
    rewrite (non_empty_field _ _ Eo). reflexivity.
Qed.

Lemma element_strings (String_of_number : float -> string) ids :
  mapM (element_string String_of_number) (map Str ids) = Js.Return ids.
Proof. induction ids as [|s ids IH]; [reflexivity|]. cbn [map mapM]. rewrite IH. reflexivity. Qed.

(** C8 (amended). For every key of the enum and every catalog of entries
    shaped as the specification types them, the handler keeps exactly the
    entries whose TrustFactors contain the key, maps each kept entry to
    its TeamsAppId if that is present and not the empty string, else to its
    OfficeAssetId if that is present and not the empty string, drops the
    entries left with neither, and returns the single text block
    "Matching App IDs for <key>:" followed by the ids one per line, or
    "No apps found with trust factor: <key>" when no id is left. *)
Theorem trust_filter_on_typed_catalog (String_of_number : float -> string)
    (key : TrustFactorKey) (entries : list CatalogEntry) :
  get_appsWithTrustFilter String_of_number key (Js.Return (catalog_value entries))
  = Js.Return {| content :=
        [ {| type := "text";
             text := render key (ids_non_empty (key_string key) entries) |} ] |}.
Proof.
  unfold get_appsWithTrustFilter, matchingApps, catalog_value, ids_non_empty.
  cbn [mbind Js.completion_bind as_array].
  rewrite filter_entries. cbn [mbind Js.completion_bind].
  rewrite map_entries. cbn [mbind Js.completion_bind]. rewrite truthy_ids.
  destruct (omap id_if_non_empty _) as [|s ids']; [reflexivity|].
  change (Str s :: map Str ids') with (map Str (s :: ids')).
  cbn [map]. 
  change (Str s :: map Str ids') with (map Str (s :: ids')).
  rewrite element_strings. reflexivity.
Qed.

(** C8 as stated fails on an entry whose TeamsAppId is present and empty:
    the code falls back to the OfficeAssetId, the claim keeps the
    TeamsAppId. *)
Lemma empty_TeamsAppId_falls_back :
  let entry := {| TrustFactors := ["CMP09_complianceSOC_2"]; TeamsAppId := Some "";
                  OfficeAssetId := Some "office-1"; others := [] |} in
  matchingApps (key_string CMP09_complianceSOC_2) (catalog_value [entry])
  = Js.Return [Str "office-1"]
  /\ ids_as_claimed (key_string CMP09_complianceSOC_2) [entry] = [""]
  /\ matchingApps (key_string CMP09_complianceSOC_2) (catalog_value [entry])
     <> Js.Return (map Str (ids_as_claimed (key_string CMP09_complianceSOC_2) [entry])).
Proof. cbv zeta. split; [|split]; vm_compute; [reflexivity | reflexivity | discriminate]. Qed.

End CatalogFacts.
(** ** The catalog cache *)

Section CacheFacts.
Import Catalog.

Lemma step_fetches_call w id :
  fetches (step w (Call id))
  = if truthy (trustCatalogCache w) then fetches w else S (fetches w).
Proof. simpl. destruct (truthy _); reflexivity. Qed.

Lemma step_without_json w e :
  is_json_settles e = false ->
  trustCatalogCache (step w e) = trustCatalogCache w.
Proof.
  destruct e as [id|id outcome|id]; simpl; [| |discriminate]; intros _.
  - destruct (truthy _); reflexivity.
  - destruct (activations w !! id) as [[]|]; reflexivity.
Qed.

Lemma step_fetches_other w e :
  is_call e = false -> fetches (step w e) = fetches w.
Proof.
  destruct e as [id|id outcome|id]; simpl; [discriminate| |]; intros _.
  - destruct (activations w !! id) as [[]|]; reflexivity.
  - destruct (activations w !! id) as [[|[]|]|]; reflexivity.
Qed.

Lemma run_before_any_body w events :
  truthy (trustCatalogCache w) = false ->
  Forall (fun e => is_json_settles e = false) events ->
  fetches (run w events) = fetches w + calls events
  /\ trustCatalogCache (run w events) = trustCatalogCache w.
Proof.
  intros Hw Hev. revert w Hw. induction Hev as [|e events He _ IH]; intros w Hw.
  - unfold calls. simpl. split; [lia | reflexivity].
  - unfold run in *. cbn [fold_left].
    pose proof (step_without_json w e He) as Hc.
    destruct (IH (step w e)) as [IHf IHc]; [congruence|].
    rewrite IHf, IHc, Hc. split; [|reflexivity].
    unfold calls. rewrite filter_cons.
    destruct (is_call e) eqn:Ecall; case_decide; try congruence.
    + destruct e; try discriminate. rewrite step_fetches_call, Hw. simpl. lia.
    + rewrite step_fetches_other by assumption. reflexivity.
Qed.

(** C5 (amended). A call that finds the cache empty issues an outbound
    fetch of its own and suspends, whether or not another fetch is in
    flight; so in every trace in which no body has been parsed yet (in
    particular before the first fetch resolves) the number of outbound
    fetches is the number of calls: two concurrent callers, two fetches.
    Only a call that finds the cache populated issues none and returns the
    cached value. *)
Theorem concurrent_callers_each_fetch :
  (forall w id, truthy (trustCatalogCache w) = false ->
     fetches (step w (Call id)) = S (fetches w)
     /\ activations (step w (Call id)) !! id = Some AwaitingFetch)
  /\ (forall events, Forall (fun e => is_json_settles e = false) events ->
        fetches (run initial events) = calls events)
  /\ (forall w id, truthy (trustCatalogCache w) = true ->
        fetches (step w (Call id)) = fetches w
        /\ result (step w (Call id)) id = Some (Js.Return (trustCatalogCache w))).
Proof.
  split; [|split].
  - intros w id Hw. simpl. rewrite Hw. simpl. split; [reflexivity|].
    apply lookup_insert_eq.
  - intros events Hev. apply (run_before_any_body initial events eq_refl Hev).
  - intros w id Hw. unfold result. simpl. rewrite Hw. simpl.
    rewrite lookup_insert_eq. split; reflexivity.
Qed.

(** One caller, one fetch; two callers and a failed fetch, two fetches. *)
Lemma concurrent_callers_each_fetch_witness :
  fetches (step initial (Call 0)) = 1
  /\ fetches (run initial [Call 0; Call 1; FetchSettles 0 (Js.Throw (Js.Error "offline"))]) = 2.
Proof.
  destruct concurrent_callers_each_fetch as (H1 & H2 & _). split.
  - apply (H1 initial 0 eq_refl).
  - apply (H2 [Call 0; Call 1; FetchSettles 0 (Js.Throw (Js.Error "offline"))]).
    repeat constructor.
Defined.

(** C5 as stated fails: two calls arrive, both are still waiting for
    their fetch, and two fetches have been issued, not one. *)
Lemma two_concurrent_calls_fetch_twice :
  activations (run initial [Call 0; Call 1]) !! 0 = Some AwaitingFetch
  /\ activations (run initial [Call 0; Call 1]) !! 1 = Some AwaitingFetch
  /\ fetches (run initial [Call 0; Call 1]) <> 1.
Proof. vm_compute. repeat split; discriminate. Qed.

Lemma settled_ignores_fetch w id r outcome :
  activations w !! id = Some (Settled r) -> step w (FetchSettles id outcome) = w.
Proof. intros Hid. simpl. rewrite Hid. reflexivity. Qed.

Lemma settled_ignores_json w id r :
  activations w !! id = Some (Settled r) -> step w (JsonSettles id) = w.
Proof. intros Hid. simpl. rewrite Hid. reflexivity. Qed.

Lemma call_hit w id :
  truthy (trustCatalogCache w) = true ->
  forall outcome,
    fetchTrustCatalog w id outcome
    = {| trustCatalogCache := trustCatalogCache w;
         fetches := fetches w;
         activations := <[id := Settled (Js.Return (trustCatalogCache w))]> (activations w) |}.
Proof.
  intros Hw outcome. unfold fetchTrustCatalog, run. cbn [fold_left].
  assert (step w (Call id)
          = {| trustCatalogCache := trustCatalogCache w;
               fetches := fetches w;
               activations := <[id := Settled (Js.Return (trustCatalogCache w))]> (activations w) |})
    as -> by (simpl; rewrite Hw; reflexivity).
  rewrite (settled_ignores_fetch _ id (Js.Return (trustCatalogCache w)))
    by apply lookup_insert_eq.
  apply (settled_ignores_json _ id (Js.Return (trustCatalogCache w))), lookup_insert_eq.
Qed.

Lemma call_miss w id outcome :
  truthy (trustCatalogCache w) = false ->
  fetchTrustCatalog w id outcome
  = {| trustCatalogCache := fst (settle (trustCatalogCache w) outcome);
       fetches := S (fetches w);
       activations := <[id := Settled (snd (settle (trustCatalogCache w) outcome))]> (activations w) |}.
Proof.
  intros Hw. unfold fetchTrustCatalog, run. cbn [fold_left].
  destruct w as [cache n acts]. cbn [trustCatalogCache fetches activations] in *.
  cbn [step trustCatalogCache fetches activations]. rewrite Hw.
  cbn [trustCatalogCache fetches activations]. rewrite lookup_insert_eq.
  destruct outcome as [[[] [parsed|exn]]|exn];
    cbn [negb ok json settle fst snd step trustCatalogCache fetches activations];
    rewrite !lookup_insert_eq, ?insert_insert_eq; reflexivity.
Qed.

(** C6. A call of [fetchTrustCatalog] run to its end from any state of the
    module (so after any sequence of earlier calls): when a cached value
    exists (the module variable is truthy, as every array is) the call
    returns it, issues no fetch and leaves the cache as it is; otherwise it
    issues exactly one fetch, and when the response is not ok it fails with
    the error "Failed to fetch catalog" and the cache stays as it was, so
    that the next call fetches again, and when the response is ok and its
    body parses to an array that array becomes the cache and is returned. *)
Theorem fetchTrustCatalog_get (w : World) (id : nat) (outcome : Js.Completion FetchResponse) :
  let w' := fetchTrustCatalog w id outcome in
  (truthy (trustCatalogCache w) = true ->
     result w' id = Some (Js.Return (trustCatalogCache w))
     /\ fetches w' = fetches w
     /\ trustCatalogCache w' = trustCatalogCache w)
  /\ (truthy (trustCatalogCache w) = false ->
      fetches w' = S (fetches w)
      /\ (forall response, outcome = Js.Return response -> ok response = false ->
            result w' id = Some (Js.Throw (Js.Error "Failed to fetch catalog"))
            /\ trustCatalogCache w' = trustCatalogCache w
            /\ forall id' outcome', fetches (fetchTrustCatalog w' id' outcome') = S (S (fetches w)))
      /\ (forall response items, outcome = Js.Return response -> ok response = true ->
            json response = Js.Return (Array items) ->
            result w' id = Some (Js.Return (Array items))
            /\ trustCatalogCache w' = Array items)).
Proof.
  cbv zeta. split; intros Hw.
  - rewrite (call_hit w id Hw). unfold result. cbn [activations fetches trustCatalogCache].
    rewrite lookup_insert_eq. auto.
  - rewrite (call_miss w id outcome Hw). unfold result.
    cbn [activations fetches trustCatalogCache]. rewrite lookup_insert_eq.
    split; [reflexivity|]. split.
    + intros response -> Hok. cbn [settle]. rewrite Hok. cbn [negb fst snd].
      split; [reflexivity|]. split; [reflexivity|].
      intros id' outcome'. rewrite call_miss by exact Hw. reflexivity.
    + intros response items -> Hok Hjson. cbn [settle]. rewrite Hok, Hjson.
      cbn [negb fst snd]. auto.
Qed.

(** A failed call, a successful one and a third served from the cache. *)
Lemma fetchTrustCatalog_get_witness :
  let failed := fetchTrustCatalog initial 0 (Js.Return {| ok := false; json := Js.Return Null |}) in
  let fetched := fetchTrustCatalog failed 1 (Js.Return {| ok := true; json := Js.Return (Array [Str "entry"]) |}) in
  let again := fetchTrustCatalog fetched 2 (Js.Return {| ok := true; json := Js.Return (Array []) |}) in
  result failed 0 = Some (Js.Throw (Js.Error "Failed to fetch catalog"))
  /\ trustCatalogCache failed = Null
  /\ result fetched 1 = Some (Js.Return (Array [Str "entry"]))
  /\ fetches fetched = 2
  /\ result again 2 = Some (Js.Return (Array [Str "entry"]))
  /\ fetches again = 2.
Proof.
  cbv zeta.
  pose proof (fetchTrustCatalog_get initial 0
                (Js.Return {| ok := false; json := Js.Return Null |})) as H0.
  cbv zeta in H0. destruct H0 as [_ H0]. destruct (H0 eq_refl) as (F0 & H0' & _).
  destruct (H0' _ eq_refl eq_refl) as (R0 & C0 & N0).
  set (failed := fetchTrustCatalog initial 0 _) in *.
  pose proof (fetchTrustCatalog_get failed 1
                (Js.Return {| ok := true; json := Js.Return (Array [Str "entry"]) |})) as H1.
  cbv zeta in H1. destruct H1 as [_ H1].
  destruct (H1 ltac:(rewrite C0; reflexivity)) as (F1 & _ & H1').
  destruct (H1' _ _ eq_refl eq_refl eq_refl) as (R1 & C1).
  set (fetched := fetchTrustCatalog failed 1 _) in *.
  pose proof (fetchTrustCatalog_get fetched 2
                (Js.Return {| ok := true; json := Js.Return (Array []) |})) as H2.
  cbv zeta in H2. destruct H2 as [H2 _].
  destruct (H2 ltac:(rewrite C1; reflexivity)) as (R2 & F2 & C2).
  rewrite R0, C0, R1, F1, F0, R2, F2, F1, F0, C1. repeat split; reflexivity.
Defined.

End CacheFacts.
Section RegexFacts.
Import Text Regex Sse.
Local Open Scope N_scope.
Local Open Scope list_scope.

Lemma star_backtracks {R} p s (k : text -> text -> option R) :
  (forall m x r, p x = true -> k m (x :: r) = None) ->
  star p s k = k (fst (span p s)) (snd (span p s)).
Proof.
  revert k. induction s as [|x s IH]; intros k Hk; [reflexivity|].
  cbn [star span]. destruct (p x) eqn:Hx; [|reflexivity].
  rewrite IH by (intros; apply Hk; assumption).
  cbn [fst snd]. rewrite (Hk [] x s Hx).
  destruct (k _ _); reflexivity.
Qed.

Lemma star_longest {R} p s (k : text -> text -> option R) :
  (forall m r, k m r <> None) ->
  star p s k = k (fst (span p s)) (snd (span p s)).
Proof.
  revert k. induction s as [|x s IH]; intros k Hk; [reflexivity|].
  cbn [star span]. destruct (p x) eqn:Hx; [|reflexivity].
  rewrite IH by (intros; apply Hk). cbn [fst snd].
  destruct (k _ _) eqn:E; [reflexivity|]. exfalso. exact (Hk _ _ E).
Qed.

Lemma run_literal {R} t r s cap (k : text -> text -> option text -> option R) :
  run (literal t r) s cap k
  = match strip_prefix t s with
    | Some s1 => run r s1 cap (fun m rest c => k (t ++ m) rest c)
    | None => None
    end.
Proof.
  revert s k. induction t as [|p t IH]; intros s k; [reflexivity|].
  cbn [literal run strip_prefix]. destruct s as [|x s]; [reflexivity|].
  destruct (N.eqb_spec x p) as [->|]; [|reflexivity].
  rewrite IH. reflexivity.
Qed.

Lemma match_here_pattern s :
  match_here pattern s
  = match occurrence s with
    | Some (ws, path, rest) =>
        Some {| matched := DATA ++ ws ++ SLASH :: path;
                group1 := SLASH :: path;
                after := rest |}
    | None => None
    end.
Proof.
  unfold match_here, pattern, occurrence. rewrite run_literal. fold DATA.
  destruct (strip_prefix DATA s) as [s1|]; [|reflexivity].
  cbn [run]. rewrite star_backtracks.
  - destruct (snd (span is_space s1)) as [|c s3]; [reflexivity|].
    unfold SLASH. destruct (N.eqb_spec c 0x2F) as [->|]; [|reflexivity].
    rewrite star_longest by discriminate. reflexivity.
  - intros m x r Hx. destruct (N.eqb_spec x 0x2F) as [->|]; [discriminate | reflexivity].
Qed.

End RegexFacts.
Section OccurrenceFacts.
Import Text Regex Sse.
Local Open Scope N_scope.
Local Open Scope list_scope.

Lemma strip_prefix_Some t s s1 : strip_prefix t s = Some s1 -> s = t ++ s1.
Proof.
  revert s. induction t as [|p t IH]; intros s H; cbn in H.
  - injection H as ->. reflexivity.
  - destruct s as [|c s]; [discriminate|].
    destruct (N.eqb_spec c p) as [->|]; [|discriminate].
    cbn. f_equal. apply IH, H.
Qed.

Lemma strip_prefix_app t s : strip_prefix t (t ++ s) = Some s.
Proof.
  induction t as [|p t IH]; [reflexivity|]. cbn. rewrite N.eqb_refl. exact IH.
Qed.

Lemma span_app p s : s = fst (span p s) ++ snd (span p s).
Proof.
  induction s as [|c s IH]; [reflexivity|]. cbn.
  destruct (p c); [|reflexivity]. cbn. f_equal. exact IH.
Qed.

Lemma span_fst p s : Forall (fun c => p c = true) (fst (span p s)).
Proof.
  induction s as [|c s IH]; cbn; [constructor|].
  destruct (p c) eqn:E; cbn; [|constructor]. constructor; assumption.
Qed.

Lemma span_snd p s :
  snd (span p s) = [] \/ exists c s', snd (span p s) = c :: s' /\ p c = false.
Proof.
  induction s as [|c s IH]; cbn; [left; reflexivity|].
  destruct (p c) eqn:E; cbn; [exact IH|]. right. eauto.
Qed.

Lemma span_prefix p a b :
  Forall (fun c => p c = true) a ->
  (b = [] \/ exists c b', b = c :: b' /\ p c = false) ->
  span p (a ++ b) = (a, b).
Proof.
  intros Ha Hb. induction Ha as [|c a Hc _ IH]; cbn.
  - destruct Hb as [->|(c & b' & -> & Hc)]; [reflexivity|]. cbn. rewrite Hc. reflexivity.
  - rewrite Hc, IH. reflexivity.
Qed.

Lemma ends_line_span s : ends_line (snd (span not_newline s)).
Proof.
  destruct (span_snd not_newline s) as [->|(c & s' & -> & Hc)]; [left; reflexivity|].
  right. exists c, s'. unfold is_newline. rewrite Hc. split; reflexivity.
Qed.

Lemma occurrence_sound s ws path rest :
  occurrence s = Some (ws, path, rest) ->
  s = DATA ++ ws ++ SLASH :: path ++ rest
  /\ Forall (fun c => is_space c = true) ws
  /\ Forall (fun c => not_newline c = true) path
  /\ ends_line rest.
Proof.
  unfold occurrence. destruct (strip_prefix DATA s) as [s1|] eqn:E1; [|discriminate].
  apply strip_prefix_Some in E1. subst s.
  destruct (snd (span is_space s1)) as [|c s3] eqn:E2; [discriminate|].
  destruct (N.eqb_spec c SLASH) as [->|]; [|discriminate].
  intros [= <- <- <-]. split; [|split; [|split]].
  - f_equal. rewrite (span_app is_space s1) at 1. rewrite E2. f_equal. f_equal.
    apply span_app.
  - apply span_fst.
  - apply span_fst.
  - apply ends_line_span.
Qed.

Lemma ends_line_not_newline post :
  ends_line post -> post = [] \/ exists c b', post = c :: b' /\ not_newline c = false.
Proof.
  intros [->|(c & a & -> & Hc)]; [left; reflexivity|]. right. exists c, a.
  unfold is_newline in Hc. destruct (not_newline c); [discriminate|]. split; reflexivity.
Qed.

Lemma occurrence_complete ws path post :
  Forall (fun c => is_space c = true) ws ->
  Forall (fun c => not_newline c = true) path ->
  ends_line post ->
  occurrence (DATA ++ ws ++ SLASH :: path ++ post) = Some (ws, path, post).
Proof.
  intros Hws Hpath Hpost. unfold occurrence. rewrite strip_prefix_app.
  rewrite (span_prefix is_space ws (SLASH :: path ++ post) Hws)
    by (right; eexists _, _; split; reflexivity).
  cbn [fst snd]. rewrite N.eqb_refl.
  rewrite (span_prefix not_newline path post Hpath (ends_line_not_newline _ Hpost)).
  reflexivity.
Qed.

Lemma occurrence_Occurs s : occurrence s <> None <-> Occurs s.
Proof.
  split.
  - destruct (occurrence s) as [[[ws path] rest]|] eqn:E; [|congruence]. intros _.
    apply occurrence_sound in E. destruct E as (-> & Hws & _).
    exists ws, (path ++ rest). split; [reflexivity | assumption].
  - intros (ws & tail & -> & Hws). unfold occurrence. rewrite strip_prefix_app.
    rewrite (span_prefix is_space ws (SLASH :: tail) Hws)
      by (right; eexists _, _; split; reflexivity).
    cbn [fst snd]. rewrite N.eqb_refl. discriminate.
Qed.

Lemma occurrence_None s : ~ Occurs s -> occurrence s = None.
Proof.
  intros H. destruct (occurrence s) eqn:E; [|reflexivity].
  exfalso. apply H, occurrence_Occurs. congruence.
Qed.

Lemma occurrence_shorter s ws path rest :
  occurrence s = Some (ws, path, rest) -> (length rest < length s)%nat.
Proof.
  intros H. apply occurrence_sound in H. destruct H as (-> & _).
  rewrite !length_app. cbn. rewrite length_app. lia.
Qed.

Lemma replace_steps_enough origin n s :
  (length s <= n)%nat ->
  replace_steps n pattern (replacer origin) s = rewrite origin s.
Proof.
  unfold rewrite, replace. revert s.
  induction n as [n IH] using lt_wf_ind. intros s Hn.
  destruct s as [|c s]; [destruct n; reflexivity|].
  destruct n as [|n]; [cbn in Hn; lia|].
  cbn [length replace_steps]. rewrite match_here_pattern.
  destruct (occurrence (c :: s)) as [[[ws path] rest]|] eqn:E.
  - cbn [matched group1 after]. f_equal.
    pose proof (occurrence_shorter _ _ _ _ E) as Hlt. cbn in Hlt, Hn.
    rewrite (IH n) by lia. rewrite (IH (length s)) by lia. reflexivity.
  - f_equal. cbn in Hn. rewrite (IH n) by lia. reflexivity.
Qed.

(** The capture begins with a slash, so the replacer's test for an
    absolute URL never holds. *)
Lemma replacer_relative origin m path :
  replacer origin m (SLASH :: path) = str "data: " ++ origin ++ SLASH :: path.
Proof. reflexivity. Qed.

Lemma rewrite_nil origin : rewrite origin [] = [].
Proof. reflexivity. Qed.

Lemma rewrite_skip origin c s :
  occurrence (c :: s) = None -> rewrite origin (c :: s) = c :: rewrite origin s.
Proof.
  intros H. unfold rewrite at 1, replace. cbn [length replace_steps].
  rewrite match_here_pattern, H. reflexivity.
Qed.

Lemma rewrite_occurrence origin s ws path rest :
  occurrence s = Some (ws, path, rest) ->
  rewrite origin s = str "data: " ++ origin ++ SLASH :: path ++ rewrite origin rest.
Proof.
  intros H. pose proof (occurrence_shorter _ _ _ _ H) as Hlt.
  unfold rewrite at 1, replace. destruct s as [|c s]; [discriminate|].
  cbn [length replace_steps]. rewrite match_here_pattern, H.
  cbn [matched group1 after]. rewrite replace_steps_enough by (cbn in Hlt; lia).
  rewrite replacer_relative, <- !app_assoc. reflexivity.
Qed.

End OccurrenceFacts.
Section RewriteFacts.
Import Text Regex Sse.
Local Open Scope N_scope.
Local Open Scope list_scope.



Lemma rewrite_free origin part rest :
  free_of_occurrences part rest ->
  rewrite origin (part ++ rest) = part ++ rewrite origin rest.
Proof.
  induction part as [|c part IH]; intros Hfree; [reflexivity|].
  cbn [app]. rewrite rewrite_skip.
  - f_equal. apply IH. intros before from Heq Hfrom.
    apply (Hfree (c :: before) from); [cbn; congruence | assumption].
  - apply occurrence_None. apply (Hfree [] (c :: part)); [reflexivity | discriminate].
Qed.

Lemma last_is_suffix nl (a b : text) : last_is nl (a ++ b) -> b <> [] -> last_is nl b.
Proof.
  intros [p Hp] Hb. destruct (exists_last Hb) as (b' & z & ->).
  rewrite app_assoc in Hp. apply app_inj_tail in Hp. destruct Hp as [_ ->].
  exists b'. reflexivity.
Qed.

Lemma last_is_In nl (l : text) : last_is nl l -> In nl l.
Proof. intros [p ->]. apply in_or_app. right. left. reflexivity. Qed.

Lemma occurrence_rest_last nl s ws path rest :
  is_newline nl = true -> last_is nl s ->
  occurrence s = Some (ws, path, rest) -> last_is nl rest.
Proof.
  intros Hnl Hlast H. apply occurrence_sound in H.
  destruct H as (-> & _ & Hpath & Hrest).
  rewrite app_assoc in Hlast.
  apply last_is_suffix in Hlast; [|discriminate].
  destruct rest as [|c rest].
  - exfalso. rewrite app_nil_r in Hlast. apply last_is_In in Hlast.
    destruct Hlast as [<-|Hin]; [vm_compute in Hnl; discriminate|].
    unfold is_newline in Hnl.
    rewrite Forall_forall in Hpath. apply list_elem_of_In in Hin.
    rewrite (Hpath _ Hin) in Hnl. discriminate.
  - change (SLASH :: path ++ c :: rest) with ((SLASH :: path) ++ c :: rest) in Hlast.
    apply last_is_suffix in Hlast; [assumption | discriminate].
Qed.

Lemma span_inert s : inert s -> span is_space s = ([], s).
Proof.
  intros [->|(c & s' & -> & Hc & _)]; [reflexivity|]. cbn. rewrite Hc. reflexivity.
Qed.

Lemma span_app_stop p a b c r :
  snd (span p a) = c :: r -> span p (a ++ b) = (fst (span p a), (c :: r) ++ b).
Proof.
  induction a as [|x a IH]; cbn; [discriminate|].
  destruct (p x) eqn:Hx; cbn.
  - intros H. rewrite ?Hx, (IH H). reflexivity.
  - intros [= <- <-]. rewrite ?Hx. reflexivity.
Qed.

Lemma span_app_all p a b :
  snd (span p a) = [] -> span p (a ++ b) = (a ++ fst (span p b), snd (span p b)).
Proof.
  induction a as [|x a IH]; cbn.
  - intros _. destruct (span p b); reflexivity.
  - destruct (p x) eqn:Hx; cbn; [|discriminate].
    intros H. rewrite ?Hx, (IH H). reflexivity.
Qed.

Lemma strip_prefix_app_l t pre s s1 :
  strip_prefix t pre = Some s1 -> strip_prefix t (pre ++ s) = Some (s1 ++ s).
Proof.
  revert pre. induction t as [|x t IH]; intros pre; cbn.
  - intros [= ->]. reflexivity.
  - destruct pre as [|c pre]; [discriminate|]. cbn.
    destruct (c =? x); [apply IH | discriminate].
Qed.

Lemma strip_prefix_None_app t nl pre s :
  last_is nl pre -> ~ In nl t ->
  strip_prefix t pre = None -> strip_prefix t (pre ++ s) = None.
Proof.
  revert pre. induction t as [|x t IH]; intros pre Hlast Hin; cbn; [discriminate|].
  destruct pre as [|c pre].
  - destruct Hlast as [p Hp]. destruct p; discriminate.
  - cbn. destruct (N.eqb_spec c x) as [->|]; [|reflexivity].
    destruct pre as [|c' pre].
    + destruct Hlast as [p Hp]. destruct p as [|? [|]]; try discriminate.
      injection Hp as ->. exfalso. apply Hin. left. reflexivity.
    + apply IH.
      * change (x :: c' :: pre) with ([x] ++ c' :: pre) in Hlast.
        apply last_is_suffix in Hlast; [assumption | discriminate].
      * intros H. apply Hin. right. exact H.
Qed.

Lemma newline_not_in_DATA nl : is_newline nl = true -> ~ In nl DATA.
Proof.
  intros Hnl Hin. cbn in Hin.
  repeat (destruct Hin as [<-|Hin]; [discriminate|]). exact Hin.
Qed.

Lemma occurrence_None_app nl pre s :
  is_newline nl = true -> last_is nl pre -> inert s ->
  occurrence pre = None -> occurrence (pre ++ s) = None.
Proof.
  intros Hnl Hlast Hs. unfold occurrence.
  destruct (strip_prefix DATA pre) as [s1|] eqn:E1.
  - rewrite (strip_prefix_app_l _ _ s _ E1).
    destruct (snd (span is_space s1)) as [|c s3] eqn:E2.
    + intros _. rewrite (span_app_all _ _ s E2), (span_inert s Hs). cbn [snd].
      destruct Hs as [->|(c & s' & -> & _ & Hc)]; [reflexivity|].
      destruct (N.eqb_spec c SLASH); [contradiction | reflexivity].
    + rewrite (span_app_stop _ _ s _ _ E2). cbn [snd app].
      destruct (c =? SLASH); [discriminate | reflexivity].
  - intros _.
    rewrite (strip_prefix_None_app _ nl _ s Hlast (newline_not_in_DATA _ Hnl) E1).
    reflexivity.
Qed.

Lemma occurrence_Some_app nl pre s ws path rest :
  is_newline nl = true -> last_is nl pre ->
  occurrence pre = Some (ws, path, rest) ->
  occurrence (pre ++ s) = Some (ws, path, rest ++ s).
Proof.
  intros Hnl Hlast H.
  pose proof (occurrence_rest_last _ _ _ _ _ Hnl Hlast H) as Hrest.
  apply occurrence_sound in H. destruct H as (-> & Hws & Hpath & Hend).
  rewrite <- !app_assoc. cbn [app]. rewrite <- app_assoc.
  apply occurrence_complete; try assumption.
  destruct Hend as [->|(c & a & -> & Hc)].
  - destruct Hrest as [p Hp]. destruct p; discriminate.
  - right. exists c, (a ++ s). split; [reflexivity | assumption].
Qed.

Lemma rewrite_after_line_aux origin nl s n :
  is_newline nl = true -> inert s ->
  forall p, (length p <= n)%nat ->
    rewrite origin ((p ++ [nl]) ++ s) = rewrite origin (p ++ [nl]) ++ rewrite origin s.
Proof.
  intros Hnl Hs. induction n as [n IH] using lt_wf_ind. intros p Hn.
  assert (Hlast : last_is nl (p ++ [nl])) by (exists p; reflexivity).
  destruct (occurrence (p ++ [nl])) as [[[ws path] rest]|] eqn:E.
  - pose proof (occurrence_rest_last _ _ _ _ _ Hnl Hlast E) as [r' ->].
    pose proof (occurrence_shorter _ _ _ _ E) as Hlt.
    rewrite !length_app in Hlt. cbn in Hlt.
    rewrite (rewrite_occurrence origin _ _ _ _ (occurrence_Some_app _ _ s _ _ _ Hnl Hlast E)).
    rewrite (rewrite_occurrence origin _ _ _ _ E).
    rewrite (IH (length r')) by lia. rewrite <- !app_assoc. cbn [app].
    rewrite <- !app_assoc. reflexivity.
  - pose proof (occurrence_None_app _ _ s Hnl Hlast Hs E) as E'.
    destruct p as [|c p].
    + cbn [app] in *. rewrite (rewrite_skip _ _ _ E'), (rewrite_skip _ _ _ E). reflexivity.
    + cbn [app] in *. rewrite (rewrite_skip _ _ _ E'), (rewrite_skip _ _ _ E).
      cbn in Hn. rewrite (IH (length p)) by lia. reflexivity.
Qed.

Lemma rewrite_after_line origin pre s :
  starts_line pre -> inert s ->
  rewrite origin (pre ++ s) = rewrite origin pre ++ rewrite origin s.
Proof.
  intros [->|(p & nl & -> & Hnl)] Hs; [reflexivity|].
  apply (rewrite_after_line_aux origin nl s (length p) Hnl Hs p). lia.
Qed.




End RewriteFacts.
Section Utf8Facts.
Import Text.
Local Open Scope N_scope.
Local Open Scope list_scope.

Ltac decide_tests :=
  repeat match goal with
  | |- context [?a <=? ?b] => destruct (N.leb_spec a b); try lia
  | |- context [?a <? ?b] => destruct (N.ltb_spec a b); try lia
  | |- context [?a =? ?b] => destruct (N.eqb_spec a b); try lia
  end.

Lemma byte_to_of n : n < 256 -> Byte.to_N (byte_of_N n) = n.
Proof.
  intros Hn. unfold byte_of_N. destruct (Byte.of_N n) as [b|] eqn:E.
  - apply Byte.to_of_N. exact E.
  - apply Byte.of_N_None_iff in E. lia.
Qed.

Lemma lead_ascii n : n <= 0x7F -> lead n = Ascii.
Proof. intros H. unfold lead. decide_tests. reflexivity. Qed.

Lemma lead_two n : 0xC2 <= n <= 0xDF -> lead n = Opens (n - 0xC0) 1 0x80 0xBF.
Proof. intros H. unfold lead. decide_tests; reflexivity. Qed.

Lemma lead_three n :
  0xE0 <= n <= 0xEF ->
  lead n = Opens (n - 0xE0) 2 (if n =? 0xE0 then 0xA0 else 0x80)
                              (if n =? 0xED then 0x9F else 0xBF).
Proof. intros H. unfold lead. decide_tests; reflexivity. Qed.

Lemma lead_four n :
  0xF0 <= n <= 0xF4 ->
  lead n = Opens (n - 0xF0) 3 (if n =? 0xF0 then 0x90 else 0x80)
                              (if n =? 0xF4 then 0x8F else 0xBF).
Proof. intros H. unfold lead. decide_tests; reflexivity. Qed.

Lemma decode_initial b rest cp seen lower upper :
  utf8_decode_from (b :: rest) cp seen 0 lower upper
  = match lead (Byte.to_N b) with
    | Ascii => Byte.to_N b :: utf8_decode_from rest 0 0 0 0x80 0xBF
    | Opens bits k lo hi => utf8_decode_from rest bits 0 k lo hi
    | Invalid => REPLACEMENT :: utf8_decode_from rest 0 0 0 0x80 0xBF
    end.
Proof. reflexivity. Qed.

Lemma decode_continue b rest cp seen needed lower upper :
  needed <> 0 -> lower <= Byte.to_N b <= upper ->
  utf8_decode_from (b :: rest) cp seen needed lower upper
  = if seen + 1 =? needed
    then (cp * 64 + (Byte.to_N b - 0x80)) :: utf8_decode_from rest 0 0 0 0x80 0xBF
    else utf8_decode_from rest (cp * 64 + (Byte.to_N b - 0x80)) (seen + 1) needed 0x80 0xBF.
Proof.
  intros Hneeded Hb. cbn [utf8_decode_from].
  destruct (N.eqb_spec needed 0); [contradiction|].
  destruct (N.ltb_spec (Byte.to_N b) lower); [lia|].
  destruct (N.ltb_spec upper (Byte.to_N b)); [lia|]. reflexivity.
Qed.

Lemma decode_encoded_codepoint c rest :
  scalar c ->
  utf8_decode_from (utf8_encode_codepoint c ++ rest) 0 0 0 0x80 0xBF
  = c :: utf8_decode_from rest 0 0 0 0x80 0xBF.
Proof.
  intros Hc. unfold scalar in Hc. unfold utf8_encode_codepoint.
  pose proof (N.div_mod' c 64) as E0. pose proof (N.mod_lt c 64 ltac:(lia)) as R0.
  pose proof (N.div_mod' (c / 64) 64) as E1.
  pose proof (N.mod_lt (c / 64) 64 ltac:(lia)) as R1.
  pose proof (N.div_mod' (c / 64 / 64) 64) as E2.
  pose proof (N.mod_lt (c / 64 / 64) 64 ltac:(lia)) as R2.
  replace (c / 4096) with (c / 64 / 64) by (rewrite N.Div0.div_div; reflexivity).
  replace (c / 262144) with (c / 64 / 64 / 64) by (rewrite !N.Div0.div_div; reflexivity).
  replace ((c / 64 / 64) mod 64) with ((c / 64 / 64) mod 64) in * by reflexivity.
  set (r0 := c mod 64) in *. set (q0 := c / 64) in *.
  set (r1 := q0 mod 64) in *. set (q1 := q0 / 64) in *.
  set (r2 := q1 mod 64) in *. set (q2 := q1 / 64) in *.
  clearbody r0 q0 r1 q1 r2 q2.
  destruct (N.leb_spec c 0x7F); [|destruct (N.leb_spec c 0x7FF); [|destruct (N.leb_spec c 0xFFFF)]];
    cbn [app].
  - rewrite decode_initial, byte_to_of, lead_ascii by lia. reflexivity.
  - rewrite decode_initial, byte_to_of, lead_two by lia.
    rewrite decode_continue, byte_to_of by (rewrite ?byte_to_of; lia).
    cbn [N.add N.eqb Pos.eqb Pos.add]. f_equal. lia.
  - rewrite decode_initial, byte_to_of, lead_three by lia.
    rewrite decode_continue, byte_to_of by (rewrite ?byte_to_of by lia; decide_tests; lia).
    change (0 + 1 =? 2) with false. cbv iota.
    rewrite decode_continue, byte_to_of by (rewrite ?byte_to_of; lia).
    change (0 + 1 + 1 =? 2) with true. cbv iota. f_equal. lia.
  - rewrite decode_initial, byte_to_of, lead_four by lia.
    rewrite decode_continue, byte_to_of by (rewrite ?byte_to_of by lia; decide_tests; lia).
    change (0 + 1 =? 3) with false. cbv iota.
    rewrite decode_continue, byte_to_of by (rewrite ?byte_to_of; lia).
    change (0 + 1 + 1 =? 3) with false. cbv iota.
    rewrite decode_continue, byte_to_of by (rewrite ?byte_to_of; lia).
    change (0 + 1 + 1 + 1 =? 3) with true. cbv iota. f_equal. lia.
Qed.

Lemma is_scalar_spec c : is_scalar c = true <-> scalar c.
Proof. unfold is_scalar, scalar. split; [decide_tests; cbn; try discriminate; lia | intros H; decide_tests; reflexivity]. Qed.

Lemma utf8_decode_encode t :
  Forall scalar t -> utf8_decode (encode t) = t.
Proof.
  unfold utf8_decode, encode. induction 1 as [|c t Hc _ IH]; [reflexivity|].
  cbn [flat_map]. rewrite (proj2 (is_scalar_spec c) Hc).
  rewrite decode_encoded_codepoint by assumption. f_equal. exact IH.
Qed.

Lemma decode_encode t : plain t -> decode (encode t) = t.
Proof.
  intros [Hs Hbom]. unfold decode. rewrite (utf8_decode_encode t Hs).
  destruct t as [|c t]; [reflexivity|].
  destruct (N.eqb_spec c BOM) as [->|]; [|reflexivity].
  exfalso. exact (Hbom t eq_refl).
Qed.

End Utf8Facts.


Section SseFacts.
Import Text Regex Sse.
Local Open Scope N_scope.
Local Open Scope list_scope.

Lemma no_occurrence_in_free part rest :
  no_occurrence_in part rest = true -> free_of_occurrences part rest.
Proof.
  induction part as [|c part IH]; cbn [no_occurrence_in].
  - intros _ before from Heq Hfrom. destruct before, from; try discriminate. congruence.
  - destruct (occurrence ((c :: part) ++ rest)) eqn:E; [discriminate|].
    intros Hpart before from Heq Hfrom Hocc. destruct before as [|x before].
    + cbn in Heq. subst from. apply occurrence_Occurs in Hocc. congruence.
    + injection Heq as -> ->. exact (IH Hpart before from eq_refl Hfrom Hocc).
Qed.

Lemma on_first_chunk origin value :
  decode value <> [] ->
  on_chunk origin true value = (false, encode (rewrite origin (decode value))).
Proof.
  intros H. unfold on_chunk. destruct (decode value); [contradiction | reflexivity].
Qed.

Lemma on_empty_chunk origin value :
  decode value = [] -> on_chunk origin true value = (true, reencode value).
Proof. intros H. unfold on_chunk, reencode. rewrite H. reflexivity. Qed.

Lemma on_later_chunk origin value :
  on_chunk origin false value = (false, reencode value).
Proof. reflexivity. Qed.

Lemma pump_pass_through origin chunks :
  pump origin false chunks = map reencode chunks.
Proof.
  induction chunks as [|value chunks IH]; [reflexivity|].
  cbn [pump map]. rewrite on_later_chunk, IH. reflexivity.
Qed.

Lemma pump_empties origin empties chunks :
  Forall (fun v => decode v = []) empties ->
  pump origin true (empties ++ chunks) = map reencode empties ++ pump origin true chunks.
Proof.
  induction 1 as [|value empties Hv _ IH]; [reflexivity|].
  cbn [app pump map]. rewrite (on_empty_chunk _ _ Hv), IH. reflexivity.
Qed.

Lemma pump_first origin empties first later :
  Forall (fun v => decode v = []) empties -> decode first <> [] ->
  pump origin true (empties ++ first :: later)
  = map reencode empties ++ encode (rewrite origin (decode first)) :: map reencode later.
Proof.
  intros He Hf. rewrite (pump_empties _ _ _ He). cbn [pump].
  rewrite (on_first_chunk _ _ Hf), pump_pass_through. reflexivity.
Qed.

Lemma reencode_well_formed value : well_formed value -> reencode value = value.
Proof. intros (t & Ht & ->). unfold reencode. rewrite (decode_encode t Ht). reflexivity. Qed.

(** C3 (amended). The filter is a machine with the two states
    AwaitingFirstChunk and PassThrough. A chunk read in AwaitingFirstChunk
    moves it to PassThrough exactly when the chunk's decoded text is not
    empty, whether or not anything in it was rewritten; a chunk whose text
    is empty leaves it in AwaitingFirstChunk. PassThrough is never left and
    rewrites nothing. Consequently, in every stream, only the first chunk
    with non-empty text is rewritten: a data: line that first appears in a
    later chunk is forwarded as decoded. *)
Theorem filter_leaves_awaiting_on_first_text origin :
  (forall value,
     state_of (fst (on_chunk origin true value))
     = if truthy (decode value) then PassThrough else AwaitingFirstChunk)
  /\ (forall value, on_chunk origin false value = (false, encode (decode value)))
  /\ (forall empties first later,
        Forall (fun v => decode v = []) empties -> decode first <> [] ->
        pump origin true (empties ++ first :: later)
        = map (fun v => encode (decode v)) empties
            ++ encode (rewrite origin (decode first))
            :: map (fun v => encode (decode v)) later).
Proof.
  split; [|split].
  - intros value. unfold on_chunk. destruct (decode value); reflexivity.
  - reflexivity.
  - apply pump_first.
Qed.

(** An empty chunk, then the first text, then a data: line left alone. *)
Lemma filter_leaves_awaiting_on_first_text_witness :
  pump example_origin true ([] :: encode (str "event: endpoint") :: [encode relative_line])
  = [[]; encode (str "event: endpoint"); encode relative_line].
Proof.
  destruct (filter_leaves_awaiting_on_first_text example_origin) as (_ & _ & H).
  apply (H [[]] (encode (str "event: endpoint")) [encode relative_line]).
  - repeat constructor.
  - vm_compute. discriminate.
Defined.

(** C3 as stated fails: after an empty first chunk the filter is still in
    AwaitingFirstChunk, and the data: line of the second chunk is
    rewritten. *)
Lemma empty_first_chunk_keeps_awaiting :
  state_of (fst (on_chunk example_origin true [])) = AwaitingFirstChunk
  /\ pump example_origin true [[]; encode relative_line] = [[]; encode absolute_line].
Proof. split; vm_compute; reflexivity. Qed.

Lemma skipn_past {A} (a : list A) x l : skipn (S (length a)) (a ++ x :: l) = l.
Proof. induction a as [|y a IH]; [reflexivity | exact IH]. Qed.

(** Where the chunks after the first text do come out as they went in:
    each is decoded and encoded again without being rewritten, which gives
    back the chunk read whenever the chunk is by itself well-formed UTF-8
    that does not begin with a byte order mark. *)
Theorem later_chunks_are_reencoded origin empties first later :
  Forall (fun v => decode v = []) empties -> decode first <> [] ->
  skipn (S (length empties)) (pump origin true (empties ++ first :: later))
  = map (fun v => encode (decode v)) later
  /\ (Forall well_formed later ->
      skipn (S (length empties)) (pump origin true (empties ++ first :: later)) = later).
Proof.
  intros He Hf. rewrite (pump_first _ _ _ _ He Hf).
  rewrite <- (length_map reencode empties), skipn_past.
  split; [reflexivity|].
  intros Hl. induction Hl as [|v later Hv _ IH]; [reflexivity|].
  cbn [map]. rewrite (reencode_well_formed v Hv), IH. reflexivity.
Qed.

End SseFacts.
Section SseClaims.
Import Text Regex Sse.
Local Open Scope N_scope.
Local Open Scope list_scope.

(** ** The claims about the stream *)

(** Two well-formed chunks after the first come out as they went in. *)
Lemma later_chunks_are_reencoded_witness :
  skipn 1 (pump example_origin true
             [encode relative_line; encode (str "data: /later"); encode [0xE9; 0x20AC]])
  = [encode (str "data: /later"); encode [0xE9; 0x20AC]].
Proof.
  refine (proj2 (later_chunks_are_reencoded example_origin [] (encode relative_line)
                   [encode (str "data: /later"); encode [0xE9; 0x20AC]] _ _) _).
  - constructor.
  - vm_compute. discriminate.
  - repeat constructor.
    + exists (str "data: /later"). split; [|reflexivity]. split.
      * repeat constructor; vm_compute; left; reflexivity.
      * intros t'. vm_compute. discriminate.
    + exists [0xE9; 0x20AC]. split; [|reflexivity]. split.
      * repeat constructor; vm_compute; left; reflexivity.
      * intros t'. vm_compute. discriminate.
Defined.

(** C4 (the code at the failing input). The two bytes of one character
    arrive in two chunks after the first; the loop decodes each chunk by
    itself and enqueues for each the three bytes of U+FFFD, so the
    character is lost instead of being forwarded byte for byte. *)
Lemma split_character_is_not_forwarded :
  pump example_origin true [encode relative_line; [Byte.xc3]; [Byte.xa9]]
  = [encode absolute_line; [Byte.xef; Byte.xbf; Byte.xbd]; [Byte.xef; Byte.xbf; Byte.xbd]]
  /\ nth 1 (pump example_origin true [encode relative_line; [Byte.xc3]; [Byte.xa9]]) []
     <> [Byte.xc3].
Proof. split; vm_compute; [reflexivity | discriminate]. Qed.

(** The stream [start] gives when the first chunk read has text. *)
Lemma start_first_turn origin first later e out :
  on_chunk origin true first = (false, out) ->
  start origin {| chunks := first :: later; ending := e |}
  = {| chunks := out :: map (fun v => encode (decode v)) later; ending := e |}.
Proof.
  intros H. unfold start. cbn [chunks ending pump]. rewrite H, pump_pass_through.
  reflexivity.
Qed.

Lemma start_first_text origin empties first later e :
  Forall (fun v => decode v = []) empties -> decode first <> [] ->
  start origin {| chunks := empties ++ first :: later; ending := e |}
  = {| chunks := map (fun v => encode (decode v)) empties
                   ++ encode (rewrite origin (decode first))
                   :: map (fun v => encode (decode v)) later;
       ending := e |}.
Proof.
  intros He Hf. unfold start. cbn [chunks ending]. rewrite (pump_first _ _ _ _ He Hf).
  reflexivity.
Qed.

(** Every text either has no occurrence at all or splits at its leftmost
    one. *)
Lemma leftmost_occurrence s :
  free_of_occurrences s []
  \/ exists pre ws path post,
       s = pre ++ DATA ++ ws ++ SLASH :: path ++ post
       /\ free_of_occurrences pre (DATA ++ ws ++ SLASH :: path ++ post)
       /\ Forall (fun c => is_space c = true) ws
       /\ Forall (fun c => not_newline c = true) path
       /\ ends_line post.
Proof.
  induction s as [|c s IH].
  - left. intros before from Heq Hfrom. destruct before, from; try discriminate. congruence.
  - destruct (occurrence (c :: s)) as [[[ws path] rest]|] eqn:E.
    + right. exists [], ws, path, rest.
      destruct (occurrence_sound _ _ _ _ E) as (Hs & Hws & Hpath & Hrest).
      split; [exact Hs|]. split; [|auto].
      intros before from Heq Hfrom. destruct before, from; try discriminate. congruence.
    + assert (Hhere : ~ Occurs (c :: s))
        by (intros Hocc; apply occurrence_Occurs in Hocc; congruence).
      destruct IH as [Hfree | (pre & ws & path & post & -> & Hfree & Hrest)].
      * left. intros before from Heq Hfrom. destruct before as [|b before].
        -- cbn [app] in Heq. subst from. rewrite app_nil_r. exact Hhere.
        -- injection Heq as -> ->. exact (Hfree before from eq_refl Hfrom).
      * right. exists (c :: pre), ws, path, post. split; [reflexivity|]. split; [|exact Hrest].
        intros before from Heq Hfrom. destruct before as [|b before].
        -- cbn [app] in Heq. subst from. exact Hhere.
        -- injection Heq as -> ->. exact (Hfree before from eq_refl Hfrom).
Qed.

(** C10. For the first chunk with text the filter enqueues the encoding of
    the rewritten text (the chunks before it, which have no text, and the
    chunks after it being enqueued as decoded), and the rewrite is a
    global one: the stream [start] gives for a first chunk whose text has
    an occurrence carries that occurrence rewritten. Reading from the
    left, each occurrence (data:, optional white space, a slash and the
    rest of its line) that starts outside the occurrences before it is
    replaced by data:, exactly one space, the origin and the path, whatever
    white space it had, and the text after it is rewritten in the same
    way, so occurrences in payload text are rewritten as well as the
    endpoint line; text in which no occurrence starts is left as it is;
    and every text is of one of these two forms. *)
Theorem first_chunk_rewrites_each_occurrence origin :
  (forall value, decode value <> [] ->
     on_chunk origin true value = (false, encode (rewrite origin (decode value))))
  /\ (forall empties first later e,
        Forall (fun v => decode v = []) empties -> decode first <> [] ->
        start origin {| chunks := empties ++ first :: later; ending := e |}
        = {| chunks := map (fun v => encode (decode v)) empties
                         ++ encode (rewrite origin (decode first))
                         :: map (fun v => encode (decode v)) later;
             ending := e |})
  /\ (forall first later e pre ws path post,
        decode first = pre ++ DATA ++ ws ++ SLASH :: path ++ post ->
        free_of_occurrences pre (DATA ++ ws ++ SLASH :: path ++ post) ->
        Forall (fun c => is_space c = true) ws ->
        Forall (fun c => not_newline c = true) path ->
        ends_line post ->
        start origin {| chunks := first :: later; ending := e |}
        = {| chunks := encode (pre ++ str "data: " ++ origin ++ SLASH :: path
                                 ++ rewrite origin post)
                         :: map (fun v => encode (decode v)) later;
             ending := e |})
  /\ (forall pre ws path post,
        free_of_occurrences pre (DATA ++ ws ++ SLASH :: path ++ post) ->
        Forall (fun c => is_space c = true) ws ->
        Forall (fun c => not_newline c = true) path ->
        ends_line post ->
        rewrite origin (pre ++ DATA ++ ws ++ SLASH :: path ++ post)
        = pre ++ str "data: " ++ origin ++ SLASH :: path ++ rewrite origin post)
  /\ (forall s, free_of_occurrences s [] -> rewrite origin s = s)
  /\ (forall s,
        free_of_occurrences s []
        \/ exists pre ws path post,
             s = pre ++ DATA ++ ws ++ SLASH :: path ++ post
             /\ free_of_occurrences pre (DATA ++ ws ++ SLASH :: path ++ post)
             /\ Forall (fun c => is_space c = true) ws
             /\ Forall (fun c => not_newline c = true) path
             /\ ends_line post).
Proof.
  assert (Hocc : forall pre ws path post,
             free_of_occurrences pre (DATA ++ ws ++ SLASH :: path ++ post) ->
             Forall (fun c => is_space c = true) ws ->
             Forall (fun c => not_newline c = true) path ->
             ends_line post ->
             rewrite origin (pre ++ DATA ++ ws ++ SLASH :: path ++ post)
             = pre ++ str "data: " ++ origin ++ SLASH :: path ++ rewrite origin post).
  { intros pre ws path post Hfree Hws Hpath Hpost.
    rewrite (rewrite_free _ _ _ Hfree).
    rewrite (rewrite_occurrence origin _ _ _ _ (occurrence_complete ws path post Hws Hpath Hpost)).
    reflexivity. }
  split; [|split; [|split; [|split; [|split; [|exact leftmost_occurrence]]]]].
  - apply on_first_chunk.
  - apply start_first_text.
  - intros first later e pre ws path post Hfirst Hfree Hws Hpath Hpost.
    apply start_first_turn.
    rewrite on_first_chunk by (rewrite Hfirst; destruct pre; discriminate).
    rewrite Hfirst, (Hocc _ _ _ _ Hfree Hws Hpath Hpost). reflexivity.
  - exact Hocc.
  - intros s Hfree. rewrite <- (app_nil_r s) at 1.
    rewrite (rewrite_free _ _ _ Hfree). rewrite rewrite_nil. apply app_nil_r.
Qed.

(** An endpoint line with three spaces and an occurrence in a payload line. *)
Lemma first_chunk_rewrites_each_occurrence_witness :
  on_chunk example_origin true (encode two_occurrences)
  = (false, encode (rewrite example_origin (decode (encode two_occurrences))))
  /\ start example_origin
       {| chunks := [] :: encode two_occurrences :: [encode relative_line]; ending := Closed |}
     = {| chunks := map (fun v => encode (decode v)) [[]]
                      ++ encode (rewrite example_origin (decode (encode two_occurrences)))
                      :: map (fun v => encode (decode v)) [encode relative_line];
          ending := Closed |}
  /\ start example_origin
       {| chunks := encode two_occurrences :: [encode relative_line]; ending := Closed |}
     = {| chunks := encode ((str "event: endpoint" ++ [LF]) ++ str "data: " ++ example_origin
                              ++ SLASH :: str "sse/message?sessionId=abc"
                              ++ rewrite example_origin
                                   ([LF; LF] ++ str "event: message" ++ [LF]
                                      ++ str "data: see data:/docs" ++ [LF; LF]))
                      :: map (fun v => encode (decode v)) [encode relative_line];
          ending := Closed |}
  /\ rewrite example_origin two_occurrences
     = (str "event: endpoint" ++ [LF]) ++ str "data: " ++ example_origin
         ++ SLASH :: str "sse/message?sessionId=abc"
         ++ rewrite example_origin
              ([LF; LF] ++ str "event: message" ++ [LF] ++ str "data: see data:/docs" ++ [LF; LF])
  /\ rewrite example_origin
       (([LF; LF] ++ str "event: message" ++ [LF] ++ str "data: see ")
          ++ DATA ++ [] ++ SLASH :: str "docs" ++ [LF; LF])
     = ([LF; LF] ++ str "event: message" ++ [LF] ++ str "data: see ")
         ++ str "data: " ++ example_origin ++ SLASH :: str "docs"
         ++ rewrite example_origin [LF; LF]
  /\ rewrite example_origin [LF; LF] = [LF; LF].
Proof.
  destruct (first_chunk_rewrites_each_occurrence example_origin)
    as (Hchunk & Hstart & Hstream & Hocc & Hfree & _).
  split; [|split; [|split; [|split; [|split]]]].
  - apply Hchunk. vm_compute. discriminate.
  - apply (Hstart [[]] (encode two_occurrences) [encode relative_line] Closed).
    + repeat constructor.
    + vm_compute. discriminate.
  - apply (Hstream (encode two_occurrences) [encode relative_line] Closed
             (str "event: endpoint" ++ [LF]) (str "   ") (str "sse/message?sessionId=abc")
             ([LF; LF] ++ str "event: message" ++ [LF] ++ str "data: see data:/docs" ++ [LF; LF])).
    + vm_compute. reflexivity.
    + apply no_occurrence_in_free. vm_compute. reflexivity.
    + repeat constructor.
    + repeat constructor.
    + right. eexists LF, _. split; reflexivity.
  - apply (Hocc (str "event: endpoint" ++ [LF]) (str "   ") (str "sse/message?sessionId=abc")
             ([LF; LF] ++ str "event: message" ++ [LF] ++ str "data: see data:/docs" ++ [LF; LF])).
    + apply no_occurrence_in_free. vm_compute. reflexivity.
    + repeat constructor.
    + repeat constructor.
    + right. eexists LF, _. split; reflexivity.
  - apply (Hocc ([LF; LF] ++ str "event: message" ++ [LF] ++ str "data: see ") []
             (str "docs") [LF; LF]).
    + apply no_occurrence_in_free. vm_compute. reflexivity.
    + constructor.
    + repeat constructor.
    + right. exists LF, [LF]. split; reflexivity.
  - apply Hfree. apply no_occurrence_in_free. vm_compute. reflexivity.
Defined.






End SseClaims.

(** ** The helper as a whole *)

Section WorkerFacts.
Import Router Worker.

(** Were [request] bound to the inbound request, the origin would be the
    scheme of the URL and the Host header, or the host of the URL when the
    header is absent. *)
Lemma origin_if_request_were_bound request reader st stt hs requestUrl :
  rewriteSseResponseToAbsolute (Some request)
    {| body := Some reader; status := st; statusText := stt; headers := hs |} requestUrl
  = Js.Return
      {| body := Some (Sse.start
                         (Text.str (protocol requestUrl ++ "//"
                                      ++ nullish (host_header request) (host requestUrl)))
                         reader);
         status := st; statusText := stt; headers := copy_headers hs |}.
Proof. reflexivity. Qed.

(** C2 (the code at the failing input). Whatever response with a body the
    helper is given, reading [request] throws before any origin is
    computed; so does [fetch] on GET /sse with a Host header, whatever the
    SDK answers with a body. *)
Theorem helper_reads_unbound_request :
  (forall reader st stt hs requestUrl,
     rewriteSseResponseToAbsolute module_scope_request
       {| body := Some reader; status := st; statusText := stt; headers := hs |} requestUrl
     = Js.Throw (Js.ReferenceError "request is not defined"))
  /\ (forall reader st stt hs serve_fetch,
        fetch (fun _ => Js.Return {| body := Some reader; status := st;
                                     statusText := stt; headers := hs |})
              serve_fetch sse_request
        = Js.Throw (Js.ReferenceError "request is not defined")).
Proof. split; reflexivity. Qed.

End WorkerFacts.

(** * Further properties of the code *)

(** ** The calculator beyond division by zero *)

Section CalculatorMore.
Import Calculator Schema.
Variable String_of_number : float -> string.

(** X1. An operation outside the four of the schema reaches the default
    branch: the result is the text "Unknown operation", returned normally,
    and no arithmetic is done. *)
Theorem calculate_unknown_operation (operation : string) (a b : float) :
  ~ In operation operations ->
  calculate String_of_number operation a b
  = ([], Js.Return (text_result "Unknown operation")).
Proof.
  intros Hop. unfold calculate.
  repeat match goal with
  | |- context [String.eqb operation ?s] =>
      destruct (String.eqb_spec operation s) as [->|];
      [exfalso; apply Hop; cbn; tauto|]
  end.
  reflexivity.
Qed.

(** X2. An operation of the schema never reaches the default branch and
    never throws: but for a division by a zero, the call performs exactly
    one arithmetic operation, on the two arguments as given, and returns
    its value as text. *)
Theorem calculate_validated (operation : string) (a b : float) :
  In operation operations ->
  if String.eqb operation "divide" && PrimFloat.eqb b 0%float
  then calculate String_of_number operation a b
       = ([], Js.Return (text_result "Error: Cannot divide by zero"))
  else exists op,
      In op [Plus a b; Minus a b; Times a b; Divide a b]
      /\ calculate String_of_number operation a b
         = ([op], Js.Return (text_result (String_of_number (eval op)))).
Proof.
  cbn. intros [<-|[<-|[<-|[<-|[]]]]]; cbn [String.eqb andb].
  - exists (Plus a b). cbn. tauto.
  - exists (Minus a b). cbn. tauto.
  - exists (Times a b). cbn. tauto.
  - change (String.eqb "divide" "divide") with true. cbn [andb].
    unfold calculate, Js.strict_eq_number. cbn.
    destruct (PrimFloat.eqb b 0); [reflexivity|].
    exists (Divide a b). cbn. tauto.
Qed.

End CalculatorMore.

Lemma calculate_unknown_operation_witness :
  Calculator.calculate (fun _ => "0") "modulo" 7 2
  = ([], Js.Return (Calculator.text_result "Unknown operation")).
Proof.
  apply calculate_unknown_operation. cbn.
  intros [H|[H|[H|[H|[]]]]]; discriminate.
Defined.

Lemma calculate_validated_witness :
  exists op,
    In op [Calculator.Plus 2 3; Calculator.Minus 2 3; Calculator.Times 2 3;
           Calculator.Divide 2 3]
    /\ Calculator.calculate (fun _ => "6") "multiply" 2 3
       = ([op], Js.Return (Calculator.text_result ((fun _ => "6") (Calculator.eval op)))).
Proof.
  apply (calculate_validated (fun _ => "6") "multiply" 2 3). cbn. tauto.
Defined.

(** ** The router beyond /mcp *)

Section RouterMore.
Import Router Worker Paths.

Lemma strip_append_slash p :
  strip_trailing_slashes (p ++ "/") = strip_trailing_slashes p.
Proof.
  induction p as [|c p IH]; [reflexivity|].
  change (String c p ++ "/") with (String c (p ++ "/")).
  cbn [strip_trailing_slashes]. rewrite IH. reflexivity.
Qed.

Lemma normalize_append_slash u p :
  normalize_path (with_pathname u (p ++ "/")) = normalize_path (with_pathname u p).
Proof.
  unfold normalize_path. cbn [pathname with_pathname].
  destruct p as [|c p]; [reflexivity|].
  change (Js.or_string (String c p ++ "/") "/") with (String c p ++ "/").
  change (Js.or_string (String c p) "/") with (String c p).
  rewrite strip_append_slash. reflexivity.
Qed.

Lemma append_slashes p n : p ++ slashes (S n) = (p ++ "/") ++ slashes n.
Proof.
  induction p as [|c p IH]; [reflexivity|].
  change (String c p ++ slashes (S n)) with (String c (p ++ slashes (S n))).
  change ((String c p ++ "/") ++ slashes n) with (String c ((p ++ "/") ++ slashes n)).
  f_equal. exact IH.
Qed.

Lemma append_empty p : p ++ "" = p.
Proof.
  induction p as [|c p IH]; [reflexivity|].
  change (String c p ++ "") with (String c (p ++ "")). f_equal. exact IH.
Qed.

Lemma normalize_append_slashes u p n :
  normalize_path (with_pathname u (p ++ slashes n)) = normalize_path (with_pathname u p).
Proof.
  revert p. induction n as [|n IH]; intros p.
  - cbn [slashes]. rewrite append_empty. reflexivity.
  - rewrite append_slashes, IH. apply normalize_append_slash.
Qed.

Lemma normalize_reads_pathname u u' :
  pathname u = pathname u' -> normalize_path u = normalize_path u'.
Proof. unfold normalize_path. intros ->. reflexivity. Qed.

(** X3. Routing reads nothing of a request but the path of its URL, and
    any number of slashes appended to the path changes nothing: two
    requests whose paths differ only by trailing slashes, whatever their
    methods, hosts, queries and headers, are routed alike. *)
Theorem route_ignores_trailing_slashes (r1 r2 : Request) (n : nat) :
  pathname (url r2) = pathname (url r1) ++ slashes n ->
  route r2 = route r1.
Proof.
  intros Hp. unfold route.
  rewrite (normalize_reads_pathname (url r2) (with_pathname (url r1) (pathname (url r1) ++ slashes n)))
    by exact Hp.
  rewrite normalize_append_slashes.
  rewrite (normalize_reads_pathname (with_pathname (url r1) (pathname (url r1))) (url r1))
    by reflexivity.
  reflexivity.
Qed.

Lemma route_ignores_trailing_slashes_witness :
  route {| method := "DELETE";
           url := {| protocol := "http:"; host := "other.example";
                     pathname := "/sse/message///"; search := "?sessionId=x" |};
           host_header := None |}
  = route {| method := "POST";
             url := {| protocol := "https:"; host := "example.com";
                       pathname := "/sse/message"; search := "" |};
             host_header := Some "example.com" |}.
Proof. apply (route_ignores_trailing_slashes _ _ 3). reflexivity. Defined.

Lemma strip_no_trailing_slash s : ends_with_slash (strip_trailing_slashes s) = false.
Proof.
  induction s as [|c s IH]; [reflexivity|].
  cbn [strip_trailing_slashes].
  destruct (Ascii.eqb c "/") eqn:Hc; cbn [andb].
  - destruct (strip_trailing_slashes s) as [|c' s'] eqn:Hs; [reflexivity|].
    cbn [String.eqb]. cbn [ends_with_slash] in *. exact IH.
  - destruct (strip_trailing_slashes s) as [|c' s'] eqn:Hs.
    + cbn. exact Hc.
    + cbn [ends_with_slash] in *. exact IH.
Qed.

Lemma strip_fixed s : ends_with_slash s = false -> strip_trailing_slashes s = s.
Proof.
  induction s as [|c s IH]; [reflexivity|].
  intros H. cbn [strip_trailing_slashes]. destruct s as [|c' s'].
  - cbn in H. cbn. rewrite H. reflexivity.
  - cbn [ends_with_slash] in H. rewrite (IH H).
    cbn [String.eqb]. rewrite andb_false_r. reflexivity.
Qed.

(** X4. The normalized path is never empty, it ends with a slash only
    when it is the root path itself, and normalizing it again gives it
    back; so the test for an empty path in [fetch] can never hold, and the
    root text is served exactly when the normalized path is "/". *)
Theorem normalized_path_shape (request : Request) :
  normalize_path (url request) <> ""
  /\ (normalize_path (url request) = "/"
      \/ ends_with_slash (normalize_path (url request)) = false)
  /\ normalize_path (with_pathname (url request) (normalize_path (url request)))
     = normalize_path (url request)
  /\ is_root_text (route request) = String.eqb (normalize_path (url request)) "/".
Proof.
  set (u := url request).
  assert (Hne : normalize_path u <> "").
  { unfold normalize_path. destruct (strip_trailing_slashes _); discriminate. }
  assert (Hshape : normalize_path u = "/" \/ ends_with_slash (normalize_path u) = false).
  { unfold normalize_path.
    destruct (strip_trailing_slashes (Js.or_string (pathname u) "/")) eqn:Hs; [left; reflexivity|].
    right. cbn [Js.or_string]. rewrite <- Hs. apply strip_no_trailing_slash. }
  split; [exact Hne|]. split; [exact Hshape|]. split.
  - destruct Hshape as [Hroot|Hno].
    + rewrite Hroot. unfold normalize_path at 1. cbn [pathname with_pathname]. reflexivity.
    + unfold normalize_path at 1. cbn [pathname with_pathname].
      destruct (normalize_path u) as [|c p] eqn:Hn; [contradiction|].
      cbn [Js.or_string]. rewrite (strip_fixed _ Hno). reflexivity.
  - unfold route. fold u.
    set (path := normalize_path u) in *. clearbody path.
    repeat match goal with
    | |- context [String.eqb path ?b] => destruct (String.eqb_spec path b)
    end; cbn [orb is_root_text]; congruence.
Qed.

(** X5. When the SDK answers a stream-open request with a response that has
    no body, [fetch] returns that very response, status and headers
    included: the helper gives it back before it reads anything else. An
    exception of the SDK handler is the exception of [fetch]. *)
Theorem fetch_stream_open_without_body serveSSE_fetch serve_fetch (request : Request) :
  route request = StreamOpen ->
  (forall resp, serveSSE_fetch request = Js.Return resp -> body resp = None ->
     fetch serveSSE_fetch serve_fetch request = Js.Return resp)
  /\ (forall exn, serveSSE_fetch request = Js.Throw exn ->
        fetch serveSSE_fetch serve_fetch request = Js.Throw exn).
Proof.
  intros Hroute. unfold fetch. rewrite Hroute. split.
  - intros resp -> Hbody. cbn. unfold rewriteSseResponseToAbsolute. rewrite Hbody. reflexivity.
  - intros exn ->. reflexivity.
Qed.

End RouterMore.

Lemma fetch_stream_open_without_body_witness :
  let not_found : Worker.Response :=
    {| Worker.body := None; Worker.status := 404; Worker.statusText := "Not Found";
       Worker.headers := [("content-type", "text/plain")] |} in
  Worker.fetch (fun _ => Js.Return not_found) (fun _ => Js.Throw (Js.Error "unused"))
    Router.sse_request
  = Js.Return not_found.
Proof.
  cbv zeta.
  apply (proj1 (fetch_stream_open_without_body _ _ Router.sse_request eq_refl));
    reflexivity.
Defined.

(** ** The copy of the headers *)

Section HeaderFacts.
Import Worker Paths.
Local Open Scope list_scope.

Lemma without_cons k k' v hs :
  without k ((k', v) :: hs)
  = if String.eqb k' k then without k hs else (k', v) :: without k hs.
Proof.
  unfold without. rewrite filter_cons. cbn [fst].
  destruct (String.eqb k' k); case_decide as H; cbn in H; try reflexivity; intuition congruence.
Qed.

Lemma without_names k hs x : In x (map fst (without k hs)) -> x <> k /\ In x (map fst hs).
Proof.
  induction hs as [|[k' v] hs IH]; [intros []|].
  rewrite without_cons. destruct (String.eqb_spec k' k) as [->|Hk]; cbn.
  - intros H. destruct (IH H). intuition congruence.
  - intros [<-|H]; [intuition congruence|]. destruct (IH H). intuition congruence.
Qed.

Lemma without_NoDup k hs : NoDup (map fst hs) -> NoDup (map fst (without k hs)).
Proof.
  induction hs as [|[k' v] hs IH]; [intros _; constructor|].
  cbn [map fst]. rewrite NoDup_cons, list_elem_of_In. intros [Hk' Hhs].
  rewrite without_cons. destruct (String.eqb k' k); [auto|].
  cbn [map fst]. apply NoDup_cons. rewrite list_elem_of_In. split; [|auto].
  intros H. apply without_names in H. intuition congruence.
Qed.

Lemma without_first_value k k' hs :
  k <> k' -> first_value k (without k' hs) = first_value k hs.
Proof.
  intros Hk. induction hs as [|[k0 v0] hs IH]; [reflexivity|].
  rewrite without_cons. cbn [first_value].
  destruct (String.eqb_spec k0 k') as [E1|E1].
  - destruct (String.eqb_spec k0 k) as [E2|E2]; [congruence | exact IH].
  - cbn [first_value]. rewrite IH. reflexivity.
Qed.

Lemma without_absent k hs : ~ In k (map fst hs) -> without k hs = hs.
Proof.
  induction hs as [|[k' v] hs IH]; [reflexivity|].
  cbn [map fst In]. intros H. rewrite without_cons.
  destruct (String.eqb_spec k' k); [intuition congruence|]. rewrite IH by intuition congruence. reflexivity.
Qed.

Lemma headers_set_cons k v k' v' hs :
  headers_set k v ((k', v') :: hs)
  = if String.eqb k' k then (k, v) :: without k hs else (k', v') :: headers_set k v hs.
Proof. reflexivity. Qed.

Lemma headers_set_names k v hs x :
  In x (map fst (headers_set k v hs)) -> x = k \/ In x (map fst hs).
Proof.
  induction hs as [|[k' v'] hs IH]; [cbn; intuition congruence|].
  rewrite headers_set_cons. destruct (String.eqb_spec k' k) as [->|]; cbn [map fst In].
  - intros [<-|H]; [intuition congruence|]. apply without_names in H. intuition congruence.
  - intros [<-|H]; [intuition congruence|]. destruct (IH H); intuition congruence.
Qed.

Lemma headers_set_NoDup k v hs :
  NoDup (map fst hs) -> NoDup (map fst (headers_set k v hs)).
Proof.
  induction hs as [|[k' v'] hs IH]; [intros _; apply NoDup_singleton|].
  cbn [map fst]. rewrite NoDup_cons, list_elem_of_In. intros [Hk' Hhs].
  rewrite headers_set_cons. destruct (String.eqb_spec k' k) as [->|]; cbn [map fst].
  - apply NoDup_cons. rewrite list_elem_of_In. split; [|apply without_NoDup, Hhs].
    intros H. apply without_names in H. intuition congruence.
  - apply NoDup_cons. rewrite list_elem_of_In. split; [|auto].
    intros H. apply headers_set_names in H. destruct H; [congruence | intuition congruence].
Qed.

Lemma headers_set_first_value k v hs x :
  first_value x (headers_set k v hs)
  = if String.eqb k x then Some v else first_value x hs.
Proof.
  induction hs as [|[k' v'] hs IH]; [reflexivity|].
  rewrite headers_set_cons. destruct (String.eqb_spec k' k) as [->|Hk']; cbn [first_value].
  - destruct (String.eqb_spec k x) as [->|Hx]; [reflexivity|].
    apply without_first_value. congruence.
  - rewrite IH. destruct (String.eqb_spec k' x) as [->|]; [|reflexivity].
    destruct (String.eqb_spec k x); [congruence | reflexivity].
Qed.

Lemma headers_set_fresh k v hs :
  ~ In k (map fst hs) -> headers_set k v hs = hs ++ [(k, v)].
Proof.
  induction hs as [|[k' v'] hs IH]; [reflexivity|].
  cbn [map fst In]. intros H. rewrite headers_set_cons.
  destruct (String.eqb_spec k' k); [intuition congruence|]. rewrite IH by intuition congruence. reflexivity.
Qed.

Lemma first_value_app k (a b : list (string * string)) :
  first_value k (a ++ b)
  = match first_value k a with
    | Some v => Some v
    | None => first_value k b
    end.
Proof.
  induction a as [|[k' v] a IH]; [reflexivity|].
  cbn [app first_value]. destruct (String.eqb k' k); [reflexivity | exact IH].
Qed.

Lemma copy_from_NoDup hs acc : NoDup (map fst acc) -> NoDup (map fst (copy_from acc hs)).
Proof.
  revert acc. induction hs as [|[k v] hs IH]; intros acc Hacc; [exact Hacc|].
  apply IH, headers_set_NoDup, Hacc.
Qed.

Lemma copy_from_first_value hs acc x :
  first_value x (copy_from acc hs)
  = match last_value x hs with
    | Some v => Some v
    | None => first_value x acc
    end.
Proof.
  revert acc. induction hs as [|[k v] hs IH]; intros acc; [reflexivity|].
  unfold copy_from in *. cbn [fold_left fst snd]. rewrite IH, headers_set_first_value.
  unfold last_value. cbn [rev]. rewrite first_value_app. cbn [first_value].
  destruct (first_value x (rev hs)); [reflexivity|].
  destruct (String.eqb k x); reflexivity.
Qed.

Lemma copy_from_distinct hs acc :
  NoDup (map fst (acc ++ hs)) -> copy_from acc hs = acc ++ hs.
Proof.
  revert acc. induction hs as [|[k v] hs IH]; intros acc H.
  - cbn. rewrite app_nil_r. reflexivity.
  - unfold copy_from in *. cbn [fold_left fst snd].
    assert (Hk : ~ In k (map fst acc)).
    { rewrite map_app in H. cbn [map fst] in H. apply NoDup_app in H.
      destruct H as (_ & H & _). intros Hin. apply list_elem_of_In in Hin.
      apply (H k Hin). left. }
    rewrite (headers_set_fresh k v acc Hk), IH; rewrite <- app_assoc; [reflexivity | exact H].
Qed.

(** X6. The copy of the headers holds every name once, with the value the
    last header of that name carried: of several headers of one name (as
    Set-Cookie may come) only the last survives, at the place of the
    first. A list whose names are all different is copied as it is. *)
Theorem copy_headers_keeps_last (hs : list (string * string)) :
  NoDup (map fst (copy_headers hs))
  /\ (forall k, first_value k (copy_headers hs) = last_value k hs)
  /\ (NoDup (map fst hs) -> copy_headers hs = hs).
Proof.
  split; [|split].
  - apply (copy_from_NoDup hs []). apply NoDup_nil_2.
  - intros k. unfold copy_headers. fold (copy_from [] hs).
    rewrite copy_from_first_value. destruct (last_value k hs); reflexivity.
  - intros H. apply (copy_from_distinct hs [] H).
Qed.

Lemma copy_headers_keeps_last_witness :
  copy_headers [("cache-control", "no-cache"); ("content-type", "text/event-stream")]
  = [("cache-control", "no-cache"); ("content-type", "text/event-stream")].
Proof.
  apply (proj2 (proj2 (copy_headers_keeps_last _))).
  cbn. rewrite !NoDup_cons, !not_elem_of_cons, !elem_of_nil.
  repeat split; try discriminate; try intuition congruence. apply NoDup_nil_2.
Defined.

End HeaderFacts.

(** ** The stream as a whole *)

Section StreamFacts.
Import Text Regex Sse Flow.
Local Open Scope N_scope.
Local Open Scope list_scope.

Lemma on_chunk_flag origin firstChunk value :
  fst (on_chunk origin firstChunk value) = firstChunk && negb (truthy (decode value)).
Proof. unfold on_chunk. destruct firstChunk, (truthy (decode value)); reflexivity. Qed.

Lemma pump_cons origin firstChunk value later :
  pump origin firstChunk (value :: later)
  = snd (on_chunk origin firstChunk value)
      :: pump origin (fst (on_chunk origin firstChunk value)) later.
Proof. cbn [pump]. destruct (on_chunk origin firstChunk value). reflexivity. Qed.

(** X7. The loop enqueues exactly one chunk for each chunk it reads, in
    the order read, and what it enqueues for a chunk depends on the chunks
    read up to it only, never on a later one: the output for a stream that
    goes on is the output so far followed by that of the continuation,
    which is still waiting for its first text exactly when every chunk so
    far was empty. The way the stream ends is passed on as it is. *)
Theorem pump_streams origin firstChunk (a b : list (list Byte.byte)) :
  pump origin firstChunk (a ++ b)
  = pump origin firstChunk a ++ pump origin (firstChunk && all_empty a) b
  /\ length (pump origin firstChunk a) = length a
  /\ (forall e, start origin {| chunks := a ++ b; ending := e |}
                = {| chunks := pump origin true a ++ pump origin (all_empty a) b;
                     ending := e |}).
Proof.
  assert (H : forall f, pump origin f (a ++ b) = pump origin f a ++ pump origin (f && all_empty a) b).
  { induction a as [|value a IH]; intros f.
    - cbn. rewrite andb_true_r. reflexivity.
    - cbn [app]. rewrite !pump_cons, IH, on_chunk_flag. cbn [app all_empty forallb].
      rewrite andb_assoc. reflexivity. }
  split; [apply H|]. split.
  - clear H. revert firstChunk. induction a as [|value a IH]; intros f; [reflexivity|].
    rewrite pump_cons. cbn [length]. rewrite IH. reflexivity.
  - intros e. unfold start. cbn [chunks ending]. rewrite H. reflexivity.
Qed.

Lemma on_chunk_without_occurrence origin firstChunk value :
  well_formed value -> free_of_occurrences (decode value) [] ->
  snd (on_chunk origin firstChunk value) = value.
Proof.
  intros (t & Ht & ->) Hfree. rewrite (decode_encode t Ht) in Hfree.
  unfold on_chunk. rewrite (decode_encode t Ht).
  destruct (firstChunk && truthy t); cbn [snd]; [|reflexivity].
  rewrite <- (app_nil_r t) at 1. rewrite (rewrite_free _ _ _ Hfree), rewrite_nil, app_nil_r.
  reflexivity.
Qed.

(** X8. A stream in which no occurrence (data:, optional white space, a
    slash) starts, and whose chunks are each well-formed UTF-8 without a
    byte order mark, comes out of the filter exactly as it went in,
    whatever the origin. *)
Theorem start_without_occurrences origin (body : Stream) :
  Forall (fun value => well_formed value /\ free_of_occurrences (decode value) [])
         (chunks body) ->
  start origin body = body.
Proof.
  destruct body as [cs e]. unfold start. cbn [chunks ending]. intros H. f_equal.
  generalize true. induction H as [|value cs [Hw Hf] _ IH]; intros f; [reflexivity|].
  rewrite pump_cons, IH, (on_chunk_without_occurrence _ _ _ Hw Hf). reflexivity.
Qed.

Lemma start_without_occurrences_witness :
  start example_origin
    {| chunks := [encode (str "event: message" ++ [LF]);
                  encode (str "data: https://example.com/x" ++ [LF; LF])];
       ending := Closed |}
  = {| chunks := [encode (str "event: message" ++ [LF]);
                  encode (str "data: https://example.com/x" ++ [LF; LF])];
       ending := Closed |}.
Proof.
  apply start_without_occurrences. cbn [chunks].
  repeat constructor.
  - eexists. split; [|reflexivity]. split.
    + repeat constructor; vm_compute; left; reflexivity.
    + intros t'. vm_compute. discriminate.
  - apply no_occurrence_in_free. vm_compute. reflexivity.
  - eexists. split; [|reflexivity]. split.
    + repeat constructor; vm_compute; left; reflexivity.
    + intros t'. vm_compute. discriminate.
  - apply no_occurrence_in_free. vm_compute. reflexivity.
Defined.

(** X9. Whatever the pattern matches, its capture begins with a slash: the
    replacer's test for a URL that is absolute already never holds, and
    every match is replaced by data:, one space, the origin and the
    capture. A match is a proper prefix taken off the text, so the global
    replacement always advances. *)
Theorem replacer_never_sees_absolute origin (s : text) (m : Match) :
  match_here pattern s = Some m ->
  (exists path, group1 m = SLASH :: path)
  /\ startsWith (group1 m) (str "http://") = false
  /\ startsWith (group1 m) (str "https://") = false
  /\ replacer origin (matched m) (group1 m) = str "data: " ++ origin ++ group1 m
  /\ s = matched m ++ after m
  /\ (length (after m) < length s)%nat.
Proof.
  rewrite match_here_pattern.
  destruct (occurrence s) as [[[ws path] rest]|] eqn:E; [|discriminate].
  intros [= <-]. cbv beta iota delta [matched group1 after].
  pose proof (occurrence_shorter _ _ _ _ E) as Hlt.
  apply occurrence_sound in E. destruct E as (-> & _).
  split; [exists path; reflexivity|]. split; [reflexivity|]. split; [reflexivity|].
  split; [reflexivity|]. split; [|exact Hlt].
  change (DATA ++ ws ++ SLASH :: path ++ rest = (DATA ++ ws ++ SLASH :: path) ++ rest).
  rewrite <- !app_assoc. reflexivity.
Qed.

Lemma replacer_never_sees_absolute_witness :
  exists m,
    match_here pattern (str "data:  /message?sessionId=1" ++ [LF] ++ str "id: 2") = Some m
    /\ replacer example_origin (matched m) (group1 m)
       = str "data: https://example.com/message?sessionId=1".
Proof.
  eexists. split; [vm_compute; reflexivity|].
  refine (eq_trans
            (proj1 (proj2 (proj2 (proj2
               (replacer_never_sees_absolute example_origin
                  (str "data:  /message?sessionId=1" ++ [LF] ++ str "id: 2") _ _))))) _).
  - vm_compute. reflexivity.
  - vm_compute. reflexivity.
Defined.

Lemma blocks_end_line (lines : list text) :
  Forall block lines -> starts_line (concat lines).
Proof.
  induction lines as [|l lines IH] using rev_ind; [left; reflexivity|].
  intros H. apply Forall_app in H. destruct H as [_ Hl].
  apply Forall_cons in Hl. destruct Hl as [(Hne & [->|(p & nl & -> & Hnl)] & _) _];
    [contradiction|].
  right. exists (concat lines ++ p), nl. split; [|exact Hnl].
  rewrite concat_app. cbn [concat]. rewrite app_nil_r, app_assoc. reflexivity.
Qed.

Lemma block_intro c p nl :
  is_space c = false -> c <> SLASH -> is_newline nl = true -> block (c :: p ++ [nl]).
Proof.
  intros Hc Hs Hnl. split; [discriminate|]. split.
  - right. exists (c :: p), nl. split; [reflexivity | exact Hnl].
  - right. exists c, (p ++ [nl]). split; [reflexivity|]. split; assumption.
Qed.

(** X10. The rewrite works block by block: for text made of blocks that
    each end with a line break and begin with a character that is neither
    white space nor a slash (as the events of the stream do), the rewrite
    of the whole is the rewrites of the blocks put together; no match
    reaches across the boundary of two such blocks. *)
Theorem rewrite_by_blocks origin (lines : list text) :
  Forall block lines ->
  rewrite origin (concat lines) = concat (map (rewrite origin) lines).
Proof.
  induction lines as [|l lines IH] using rev_ind; [reflexivity|].
  intros H. pose proof H as H'. apply Forall_app in H'. destruct H' as [Hlines Hl].
  apply Forall_cons in Hl. destruct Hl as [(_ & _ & Hinert) _].
  rewrite map_app, !concat_app. cbn [map concat]. rewrite !app_nil_r.
  rewrite (rewrite_after_line origin _ _ (blocks_end_line _ Hlines) Hinert).
  rewrite (IH Hlines). reflexivity.
Qed.

Lemma rewrite_by_blocks_witness :
  rewrite example_origin
    (concat [str "event: endpoint" ++ [LF]; relative_line ++ [LF; LF];
             str "data: /other" ++ [LF]])
  = concat [rewrite example_origin (str "event: endpoint" ++ [LF]);
            rewrite example_origin (relative_line ++ [LF; LF]);
            rewrite example_origin (str "data: /other" ++ [LF])].
Proof.
  apply (rewrite_by_blocks example_origin
           [str "event: endpoint" ++ [LF]; relative_line ++ [LF; LF];
            str "data: /other" ++ [LF]]).
  repeat apply Forall_cons_2; [| | |apply Forall_nil_2].
  - apply (block_intro 101 (str "vent: endpoint") LF); [reflexivity | discriminate | reflexivity].
  - apply (block_intro 100 (str "ata: /sse/message?sessionId=abc" ++ [LF]) LF);
      [reflexivity | discriminate | reflexivity].
  - apply (block_intro 100 (str "ata: /other") LF); [reflexivity | discriminate | reflexivity].
Defined.

End StreamFacts.

(** ** The catalog cache beyond the three cases of a call *)

Section CacheMore.
Import Catalog Tool.

(** X11. A call that finds the cache empty and whose fetch is rejected, or
    whose response is ok but has a body that does not parse, fails with
    that very exception after its one fetch, and leaves the cache as it
    was. *)
Theorem fetchTrustCatalog_failures (w : World) (id : nat) (exn : Js.Exception) :
  truthy (trustCatalogCache w) = false ->
  (let w' := fetchTrustCatalog w id (Js.Throw exn) in
   result w' id = Some (Js.Throw exn)
   /\ trustCatalogCache w' = trustCatalogCache w
   /\ fetches w' = S (fetches w))
  /\ (let w' := fetchTrustCatalog w id (Js.Return {| ok := true; json := Js.Throw exn |}) in
      result w' id = Some (Js.Throw exn)
      /\ trustCatalogCache w' = trustCatalogCache w
      /\ fetches w' = S (fetches w)).
Proof.
  intros Hw. cbv zeta. rewrite !call_miss by exact Hw. unfold result.
  cbn [activations fetches trustCatalogCache settle ok json negb fst snd].
  rewrite !lookup_insert_eq. auto.
Qed.

Lemma fetchTrustCatalog_failures_witness :
  result (fetchTrustCatalog initial 0 (Js.Throw (Js.TypeError "fetch failed"))) 0
  = Some (Js.Throw (Js.TypeError "fetch failed"))
  /\ trustCatalogCache (fetchTrustCatalog initial 0 (Js.Throw (Js.TypeError "fetch failed")))
     = trustCatalogCache initial
  /\ fetches (fetchTrustCatalog initial 0 (Js.Throw (Js.TypeError "fetch failed")))
     = S (fetches initial).
Proof.
  exact (proj1 (fetchTrustCatalog_failures initial 0 (Js.TypeError "fetch failed") eq_refl)).
Defined.

(** X12. A body that parses to a falsy value ([null], [false], [0], the empty
    string) is returned and stored like any other, but the next call finds
    the cache falsy and fetches again: such a document is never served
    from the cache. *)
Theorem falsy_body_is_not_cached (w : World) (id : nat) (v : JsVal) :
  truthy (trustCatalogCache w) = false -> truthy v = false ->
  let w' := fetchTrustCatalog w id (ok_with v) in
  result w' id = Some (Js.Return v)
  /\ trustCatalogCache w' = v
  /\ forall id' outcome',
       fetches (fetchTrustCatalog w' id' outcome') = S (S (fetches w)).
Proof.
  intros Hw Hv. cbv zeta. unfold ok_with. rewrite call_miss by exact Hw. unfold result.
  cbn [activations fetches trustCatalogCache settle ok json negb fst snd].
  rewrite lookup_insert_eq. split; [reflexivity|]. split; [reflexivity|].
  intros id' outcome'. rewrite call_miss by exact Hv. reflexivity.
Qed.

Lemma falsy_body_is_not_cached_witness :
  result (fetchTrustCatalog initial 0 (ok_with Null)) 0 = Some (Js.Return Null)
  /\ trustCatalogCache (fetchTrustCatalog initial 0 (ok_with Null)) = Null
  /\ forall id' outcome',
       fetches (fetchTrustCatalog (fetchTrustCatalog initial 0 (ok_with Null)) id' outcome')
       = 2.
Proof. exact (falsy_body_is_not_cached initial 0 Null eq_refl eq_refl). Defined.

(** X13. A body that parses to a truthy value that is not an array (an
    object, say) is cached like a catalog. From then on every call of the
    tool, whatever its key, is served that value without any fetch and
    fails with a TypeError: nothing retries. *)
Theorem non_array_body_is_cached (String_of_number : float -> string)
    (w : World) (id : nat) (v : JsVal) :
  truthy (trustCatalogCache w) = false -> truthy v = true -> isArray v = false ->
  let w1 := fetchTrustCatalog w id (ok_with v) in
  trustCatalogCache w1 = v
  /\ forall id' key outcome',
       snd (call_tool String_of_number w1 id' key outcome')
       = Some (Js.Throw (Js.TypeError "catalog.filter is not a function"))
       /\ fetches (fst (call_tool String_of_number w1 id' key outcome')) = S (fetches w)
       /\ trustCatalogCache (fst (call_tool String_of_number w1 id' key outcome')) = v.
Proof.
  intros Hw Hv Harr. cbv zeta. unfold ok_with. rewrite call_miss by exact Hw.
  cbn [settle ok json negb fst snd]. split; [reflexivity|].
  intros id' key outcome'. unfold call_tool. cbn [fst snd].
  rewrite call_hit by exact Hv. unfold result.
  cbn [activations fetches trustCatalogCache]. rewrite lookup_insert_eq.
  split; [|auto]. cbn [fmap option_fmap option_map]. f_equal.
  unfold get_appsWithTrustFilter, matchingApps. cbn [mbind Js.completion_bind].
  destruct v; try discriminate; reflexivity.
Qed.

Lemma non_array_body_is_cached_witness :
  snd (call_tool (fun _ => "0")
         (fetchTrustCatalog initial 0 (ok_with (Object [("error", Str "moved")])))
         1 CMP04_complianceHIPAA not_ok)
  = Some (Js.Throw (Js.TypeError "catalog.filter is not a function")).
Proof.
  apply (proj2 (non_array_body_is_cached (fun _ => "0") initial 0
                  (Object [("error", Str "moved")]) eq_refl eq_refl eq_refl)).
Defined.

Lemma step_quiescent w e :
  truthy (trustCatalogCache w) = true -> quiescent w ->
  trustCatalogCache (step w e) = trustCatalogCache w
  /\ fetches (step w e) = fetches w
  /\ quiescent (step w e).
Proof.
  intros Hw Hq. destruct e as [id|id outcome|id]; cbn [step].
  - rewrite Hw. cbn [trustCatalogCache fetches]. split; [reflexivity|]. split; [reflexivity|].
    intros id' a. cbn [activations]. destruct (decide (id = id')) as [->|Hne].
    + rewrite lookup_insert_eq. intros [= <-]. eauto.
    + rewrite lookup_insert_ne by exact Hne. apply Hq.
  - destruct (activations w !! id) as [a|] eqn:Ha; [|auto].
    destruct (Hq id a Ha) as [r ->]. auto.
  - destruct (activations w !! id) as [a|] eqn:Ha; [|auto].
    destruct (Hq id a Ha) as [r ->]. auto.
Qed.

(** X14. Once the cache holds a truthy value and no call is suspended,
    nothing that happens afterwards (calls, late settlements) changes the
    cache or issues a fetch, and no call is ever suspended again. *)
Theorem populated_cache_is_stable (w : World) (events : list Event) :
  truthy (trustCatalogCache w) = true -> quiescent w ->
  trustCatalogCache (run w events) = trustCatalogCache w
  /\ fetches (run w events) = fetches w
  /\ quiescent (run w events).
Proof.
  revert w. induction events as [|e events IH]; intros w Hw Hq; [auto|].
  unfold run in *. cbn [fold_left].
  destruct (step_quiescent w e Hw Hq) as (Hc & Hf & Hq').
  destruct (IH (step w e)) as (IHc & IHf & IHq); [congruence | exact Hq'|].
  rewrite IHc, IHf, Hc, Hf. auto.
Qed.

Lemma populated_cache_is_stable_witness :
  let w := fetchTrustCatalog initial 0 (ok_with (Array [])) in
  trustCatalogCache (run w [Call 1; Call 2; JsonSettles 0; FetchSettles 1 not_ok])
  = trustCatalogCache w
  /\ fetches (run w [Call 1; Call 2; JsonSettles 0; FetchSettles 1 not_ok]) = fetches w.
Proof.
  cbv zeta.
  destruct (populated_cache_is_stable (fetchTrustCatalog initial 0 (ok_with (Array [])))
              [Call 1; Call 2; JsonSettles 0; FetchSettles 1 not_ok]) as (Hc & Hf & _).
  - reflexivity.
  - unfold ok_with. rewrite call_miss by reflexivity. intros id a. unfold initial.
    cbn [activations settle ok json negb snd].
    destruct (decide (0 = id)) as [<-|Hne].
    + rewrite lookup_insert_eq. intros [= <-]. eauto.
    + rewrite lookup_insert_ne by exact Hne. rewrite lookup_empty. discriminate.
  - split; assumption.
Defined.

(** X15. Two calls that both found the cache empty both store what they
    fetched: the cache ends with the body that was parsed last, whatever
    the first one stored, while each call returns its own body. *)
Theorem last_parsed_body_wins (a b : JsVal) :
  let both := [Call 0; Call 1; FetchSettles 0 (ok_with a); FetchSettles 1 (ok_with b)] in
  (let w := run initial (both ++ [JsonSettles 0; JsonSettles 1]) in
   trustCatalogCache w = b /\ result w 0 = Some (Js.Return a)
   /\ result w 1 = Some (Js.Return b) /\ fetches w = 2)
  /\ (let w := run initial (both ++ [JsonSettles 1; JsonSettles 0]) in
      trustCatalogCache w = a /\ result w 0 = Some (Js.Return a)
      /\ result w 1 = Some (Js.Return b) /\ fetches w = 2).
Proof.
  cbv zeta. unfold run, result, ok_with. cbn [app fold_left].
  cbn [step initial truthy trustCatalogCache fetches activations].
  repeat (rewrite ?lookup_insert_eq, ?lookup_insert_ne by discriminate;
          cbn [step ok json negb trustCatalogCache fetches activations]).
  repeat split; reflexivity.
Qed.

(** X16. The count of outbound fetches never goes down, and a trace adds at
    most one fetch for each call in it: settlements never fetch. *)
Theorem fetches_bounded_by_calls (w : World) (events : list Event) :
  fetches w <= fetches (run w events) <= fetches w + calls events.
Proof.
  revert w. induction events as [|e events IH]; intros w.
  - unfold calls. cbn. lia.
  - unfold run in *. cbn [fold_left]. specialize (IH (step w e)).
    unfold calls in *. rewrite filter_cons.
    destruct (is_call e) eqn:Ecall; case_decide; try congruence.
    + destruct e; try discriminate. rewrite step_fetches_call in IH.
      destruct (truthy (trustCatalogCache w)); cbn [length]; lia.
    + rewrite step_fetches_other in IH by assumption. lia.
Qed.

End CacheMore.

(** ** The tool on any catalog, and from call to call *)

Section ToolMore.
Import Catalog Tool.

Lemma filterM_throws {A} (f : A -> Js.Completion bool) (l : list A) x exn :
  In x l -> f x = Js.Throw exn ->
  (forall y, In y l -> f y = Js.Throw exn \/ exists keep, f y = Js.Return keep) ->
  filterM f l = Js.Throw exn.
Proof.
  induction l as [|y l IH]; [intros []|].
  intros Hin Hx Hall. cbn [filterM].
  destruct (Hall y (or_introl eq_refl)) as [Hy|[keep Hy]]; rewrite Hy; [reflexivity|].
  cbn [mbind Js.completion_bind].
  destruct Hin as [->|Hin]; [congruence|].
  rewrite IH; [reflexivity | exact Hin | exact Hx |].
  intros z Hz. apply Hall. right. exact Hz.
Qed.

Lemma get_throws_or_returns v name :
  get v name = Js.Throw (Js.TypeError
                 ("Cannot read properties of null or undefined (reading " ++ name ++ ")"))
  \/ exists r, get v name = Js.Return r.
Proof. destruct v; cbn; eauto. Qed.

(** X17. One [null] (or [undefined]) entry anywhere in the catalog makes
    the tool fail with a TypeError for every key, whatever the other
    entries are: the filter reads a property of each entry before it looks
    at anything else. *)
Theorem null_entry_fails_every_call (String_of_number : float -> string)
    (key : TrustFactorKey) (items : list JsVal) :
  In Null items \/ In Undefined items ->
  get_appsWithTrustFilter String_of_number key (Js.Return (Array items))
  = Js.Throw (Js.TypeError
                "Cannot read properties of null or undefined (reading TrustFactors)").
Proof.
  intros Hin. unfold get_appsWithTrustFilter, matchingApps.
  cbn [mbind Js.completion_bind as_array].
  assert (Hnull : exists x, In x items /\ (x = Null \/ x = Undefined))
    by (destruct Hin; eauto).
  destruct Hnull as (x & Hx & Hnull).
  rewrite (filterM_throws _ items x
             (Js.TypeError "Cannot read properties of null or undefined (reading TrustFactors)")).
  - reflexivity.
  - exact Hx.
  - destruct Hnull as [->| ->]; reflexivity.
  - intros y _. destruct (get_throws_or_returns y "TrustFactors") as [H|[r H]]; rewrite H.
    + left. reflexivity.
    + right. eexists. reflexivity.
Qed.

Lemma null_entry_fails_every_call_witness :
  get_appsWithTrustFilter (fun _ => "0") CMP25_complianceCOPPA
    (Js.Return (Array [entry_value {| TrustFactors := ["CMP25_complianceCOPPA"];
                                      TeamsAppId := Some "t"; OfficeAssetId := None;
                                      others := [] |};
                       Null]))
  = Js.Throw (Js.TypeError
                "Cannot read properties of null or undefined (reading TrustFactors)").
Proof. apply null_entry_fails_every_call. left. right. left. reflexivity. Defined.

Lemma filterM_skips {A} (f : A -> Js.Completion bool) (a b : list A) x :
  f x = Js.Return false -> filterM f (a ++ x :: b) = filterM f (a ++ b).
Proof.
  intros Hx. induction a as [|y a IH].
  - cbn [app filterM]. rewrite Hx. cbn [mbind Js.completion_bind].
    destruct (filterM f b); reflexivity.
  - cbn [app filterM]. rewrite IH. reflexivity.
Qed.

(** X18. An entry whose TrustFactors is anything but an array (missing, a
    string even if it contains the key, an object, a number) is passed
    over: the answer of the tool is what it would be without that
    entry. *)
Theorem entry_without_factor_array_is_skipped (String_of_number : float -> string)
    (key : TrustFactorKey) (before after : list JsVal) (item factors : JsVal) :
  get item "TrustFactors" = Js.Return factors -> isArray factors = false ->
  get_appsWithTrustFilter String_of_number key (Js.Return (Array (before ++ item :: after)))
  = get_appsWithTrustFilter String_of_number key (Js.Return (Array (before ++ after))).
Proof.
  intros Hget Harr. unfold get_appsWithTrustFilter, matchingApps.
  cbn [mbind Js.completion_bind as_array].
  rewrite filterM_skips; [reflexivity|].
  rewrite Hget. cbn [mbind Js.completion_bind]. rewrite Harr. reflexivity.
Qed.

Lemma entry_without_factor_array_is_skipped_witness :
  get_appsWithTrustFilter (fun _ => "0") PRV01_dataProtection
    (Js.Return (Array ([] ++ Object [("TrustFactors", Str "PRV01_dataProtection");
                                     ("TeamsAppId", Str "t")] :: [])))
  = get_appsWithTrustFilter (fun _ => "0") PRV01_dataProtection (Js.Return (Array ([] ++ []))).
Proof.
  apply (entry_without_factor_array_is_skipped _ _ [] [] _ (Str "PRV01_dataProtection"));
    reflexivity.
Defined.

Lemma typed_catalog_answer (String_of_number : float -> string) key entries :
  get_appsWithTrustFilter String_of_number key (Js.Return (catalog_value entries))
  = Js.Return (text_block (render key (ids_non_empty (key_string key) entries))).
Proof.
  unfold get_appsWithTrustFilter, matchingApps, catalog_value, ids_non_empty.
  cbn [mbind Js.completion_bind as_array].
  rewrite filter_entries. cbn [mbind Js.completion_bind].
  rewrite map_entries. cbn [mbind Js.completion_bind]. rewrite truthy_ids.
  destruct (omap id_if_non_empty _) as [|s ids']; [reflexivity|].
  change (Str s :: map Str ids') with (map Str (s :: ids')).
  cbn [map].
  change (Str s :: map Str ids') with (map Str (s :: ids')).
  rewrite element_strings. reflexivity.
Qed.

(** X19. After one call of the tool has fetched a catalog, a second call
    with any key issues no fetch, whatever the network would answer, and
    filters the very catalog the first call fetched. *)
Theorem second_call_uses_cached_catalog (String_of_number : float -> string)
    (w : World) (entries : list CatalogEntry) (id1 id2 : nat)
    (key1 key2 : TrustFactorKey) (outcome2 : Js.Completion FetchResponse) :
  truthy (trustCatalogCache w) = false ->
  let first := call_tool String_of_number w id1 key1 (ok_with (catalog_value entries)) in
  let second := call_tool String_of_number (fst first) id2 key2 outcome2 in
  snd first
  = Some (Js.Return (text_block (render key1 (ids_non_empty (key_string key1) entries))))
  /\ snd second
     = Some (Js.Return (text_block (render key2 (ids_non_empty (key_string key2) entries))))
  /\ fetches (fst second) = S (fetches w)
  /\ trustCatalogCache (fst second) = catalog_value entries.
Proof.
  intros Hw. cbv zeta. unfold call_tool, ok_with. cbn [fst snd].
  rewrite (call_miss w id1 _ Hw). cbn [settle ok json negb fst snd].
  rewrite call_hit by reflexivity. unfold result.
  cbn [activations fetches trustCatalogCache]. rewrite !lookup_insert_eq.
  cbn [fmap option_fmap option_map]. rewrite !typed_catalog_answer. auto.
Qed.

Lemma second_call_uses_cached_catalog_witness :
  let entries := [ {| TrustFactors := ["CMP04_complianceHIPAA"; "SEC28_securityPenTest"];
                      TeamsAppId := Some "teams-1"; OfficeAssetId := None; others := [] |} ] in
  let first := call_tool (fun _ => "0") initial 0 CMP04_complianceHIPAA
                 (ok_with (catalog_value entries)) in
  let second := call_tool (fun _ => "0") (fst first) 1 SEC28_securityPenTest not_ok in
  snd second
  = Some (Js.Return (text_block (render SEC28_securityPenTest
                                   (ids_non_empty (key_string SEC28_securityPenTest) entries))))
  /\ fetches (fst second) = 1.
Proof.
  cbv zeta.
  pose proof (second_call_uses_cached_catalog (fun _ => "0") initial
                [ {| TrustFactors := ["CMP04_complianceHIPAA"; "SEC28_securityPenTest"];
                     TeamsAppId := Some "teams-1"; OfficeAssetId := None; others := [] |} ]
                0 1 CMP04_complianceHIPAA SEC28_securityPenTest not_ok eq_refl) as H.
  cbv zeta in H. destruct H as (_ & H2 & H3 & _). split; assumption.
Defined.

(** X20. A call of the tool whose fetch comes back not ok rejects with the
    error "Failed to fetch catalog" and caches nothing; the next call
    fetches again and, the response being ok this time, answers from the
    catalog it got. *)
Theorem failed_call_then_retry (String_of_number : float -> string)
    (w : World) (entries : list CatalogEntry) (id1 id2 : nat)
    (key1 key2 : TrustFactorKey) (response : FetchResponse) :
  truthy (trustCatalogCache w) = false -> ok response = false ->
  let first := call_tool String_of_number w id1 key1 (Js.Return response) in
  let second := call_tool String_of_number (fst first) id2 key2
                  (ok_with (catalog_value entries)) in
  snd first = Some (Js.Throw (Js.Error "Failed to fetch catalog"))
  /\ trustCatalogCache (fst first) = trustCatalogCache w
  /\ snd second
     = Some (Js.Return (text_block (render key2 (ids_non_empty (key_string key2) entries))))
  /\ fetches (fst second) = S (S (fetches w)).
Proof.
  intros Hw Hok. cbv zeta. unfold call_tool, ok_with. cbn [fst snd].
  rewrite (call_miss w id1 _ Hw). cbn [settle]. rewrite Hok.
  cbn [negb fst snd]. rewrite call_miss by exact Hw. unfold result.
  cbn [activations fetches trustCatalogCache settle ok json negb fst snd].
  rewrite !lookup_insert_eq. cbn [fmap option_fmap option_map].
  rewrite typed_catalog_answer. auto.
Qed.

Lemma failed_call_then_retry_witness :
  let first := call_tool (fun _ => "0") initial 0 CMP04_complianceHIPAA not_ok in
  let second := call_tool (fun _ => "0") (fst first) 1 CMP04_complianceHIPAA
                  (ok_with (catalog_value [])) in
  snd first = Some (Js.Throw (Js.Error "Failed to fetch catalog"))
  /\ fetches (fst second) = 2.
Proof.
  cbv zeta.
  pose proof (failed_call_then_retry (fun _ => "0") initial [] 0 1
                CMP04_complianceHIPAA CMP04_complianceHIPAA
                {| ok := false; json := Js.Return Null |} eq_refl eq_refl) as H.
  cbv zeta in H. destruct H as (H1 & _ & _ & H4). split; assumption.
Defined.

End ToolMore.
